(** * FP-Lib: fixed-point kernels for dsPIC33, embedded in Rocq

    The library is a set of [inline static] C functions; most bodies are
    short blocks of dsPIC33 inline assembly.  The embedding keeps that
    shape: a module of 16/32/40-bit word operations, a module holding the
    meaning of each machine instruction the sources use, and one Rocq
    function per C function whose body follows the source line by line
    (one [let] per C statement or per instruction, operands keeping the
    names of the asm operands).

    Conventions.  A C value of type [int16_t] ([_Q15]) is a [Z] in
    [-32768, 32767]; a value of type [uint16_t] ([_Q16]) is a [Z] in
    [0, 65535]; [uint32_t] ([_Q32], [_Q1616]) is a [Z] in [0, 2^32).
    A 16-bit working register holds the unsigned bit pattern. *)

From Stdlib Require Import ZArith List Lia Bool.
Import ListNotations.
Local Open Scope Z_scope.

(** ** Fixed-width words *)

Module Word.

(** Keep the low 16 (resp. 32) bits: conversion to [uint16_t]
    ([uint32_t]) and the content of a register after a write. *)
Definition wrap16 (z : Z) : Z := z mod 2 ^ 16.
Definition wrap32 (z : Z) : Z := z mod 2 ^ 32.

(** Two's-complement reading of a 16-bit pattern. *)
Definition signed16 (w : Z) : Z :=
  if Z.testbit w 15 then w - 2 ^ 16 else w.

(** Conversion of an integer to [int16_t]. *)
Definition to_int16 (z : Z) : Z := signed16 (wrap16 z).

Definition in_int16 (z : Z) : Prop := -32768 <= z <= 32767.
Definition in_uint32 (z : Z) : Prop := 0 <= z < 2 ^ 32.

End Word.
Import Word.

(** ** fp_lib_types.h: the [ULong] union

    [struct { uint16_t low; uint16_t high; }] overlaid on a [uint32_t]
    (little endian: [low] is the least significant word). *)

Module ULong.
Definition low (value : Z) : Z := Z.land value 0xFFFF.
Definition high (value : Z) : Z := Z.shiftr value 16.
Definition join (hi lo : Z) : Z := Z.lor (Z.shiftl hi 16) lo.
End ULong.

(** ** fp_lib_typeconv.h *)

(** [_Q16 res = (arg << 1) + (arg >> 14);]  The sum is computed on the
    promoted signed operand ([>>] on a negative value is the arithmetic
    shift of the compiler) and narrowed to [uint16_t] by the
    initialisation. *)
Definition convert_Q15_Q16_Naive (arg : Z) : Z :=
  let res := wrap16 (Z.shiftl arg 1 + Z.shiftr arg 14) in
  res.

(** [res = convert_Q15_Q16_Naive(arg); sat = ~(arg >> 15); res &= sat;] *)
Definition convert_Q15_Q16 (arg : Z) : Z :=
  let res := convert_Q15_Q16_Naive arg in
  let sat := wrap16 (Z.lnot (Z.shiftr arg 15)) in
  let res := Z.land res sat in
  res.

(** [return arg >> 1;] with [arg] unsigned, result narrowed to [int16_t]. *)
Definition convert_Q16_Q15 (arg : Z) : Z :=
  to_int16 (Z.shiftr arg 1).


(** ** The dsPIC33 instructions used by the inline assembly

    Each definition gives the architectural effect of one instruction on
    the values of its operands, as the dsPIC33 programmer's reference
    states it.  Working registers hold 16-bit patterns; status flags are
    not modelled because no source line reads them. *)

Module Dspic.

(** [LSR Wb, #lit4, Wnd]: logical shift right. *)
Definition lsr (wb lit4 : Z) : Z := Z.shiftr wb lit4.

(** [SL Wb, #lit4, Wnd]: shift left, bits leaving the word are lost. *)
Definition sl (wb lit4 : Z) : Z := wrap16 (Z.shiftl wb lit4).

(** [ASR Wb, #lit4, Wnd]: arithmetic shift right (sign bit replicated). *)
Definition asr (wb lit4 : Z) : Z := wrap16 (Z.shiftr (signed16 wb) lit4).

(** [ADD Wb, Ws, Wd]: 16-bit addition, carry out discarded. *)
Definition add (wb ws : Z) : Z := wrap16 (wb + ws).

(** [XOR Wb, Ws, Wd]. *)
Definition xor (wb ws : Z) : Z := Z.lxor wb ws.

(** [CPSNE Wb, Wn]: compare, skip the next instruction if the operands
    are not equal.  The result is [true] when the skip is taken. *)
Definition cpsne (wb wn : Z) : bool := negb (wb =? wn).

(** [MUL.US Wb, Ws, Wnd]: unsigned [Wb] times signed [Ws]; the 32-bit
    two's-complement product is written to the pair [Wnd] (low word)
    and [Wnd+1] (high word).  Returns [(low, high)]. *)
Definition mul_us (wb ws : Z) : Z * Z :=
  let p := wrap32 (wb * signed16 ws) in
  (ULong.low p, ULong.high p).

(** [MUL.UU Wb, Ws, Wnd], reached through [__builtin_muluu]: the full
    32-bit unsigned product of two 16-bit operands. *)
Definition muluu (wb ws : Z) : Z := wrap32 (wb * ws).

(** [MULW.UU Wb, Ws, Wnd]: unsigned multiply keeping a 16-bit result. *)
Definition mulw_uu (wb ws : Z) : Z := wrap16 (wb * ws).

(** *** Divider

    [REPEAT #0x11] runs the following instruction 18 times; the
    reference manual defines the result of [DIV.U] and [DIVF] only for
    that complete sequence, so each pair is one operation here.  [None]
    stands for the cases the manual leaves without a defined quotient:
    a zero divisor (arithmetic error trap) and, for [DIVF], a dividend
    whose magnitude is not below the divisor's (overflow). *)

(** [REPEAT #0x11; DIV.U Wm, Wn]: 16/16 unsigned divide, quotient to
    [W0], remainder to [W1].  Returns [(W0, W1)]. *)
Definition div_u (wm wn : Z) : option (Z * Z) :=
  if wn =? 0 then None else Some (wm / wn, wm mod wn).

(** [REPEAT #0x11; DIVF Wm, Wn]: signed fractional divide; the Q15
    quotient [Wm * 2^15 / Wn] (truncated towards zero) goes to [W0]
    and the remainder to [W1]. *)
Definition divf (wm wn : Z) : option (Z * Z) :=
  let m := signed16 wm in
  let n := signed16 wn in
  if n =? 0 then None
  else if Z.abs n <=? Z.abs m then None
  else Some (wrap16 (Z.quot (m * 2 ^ 15) n), wrap16 (Z.rem (m * 2 ^ 15) n)).

(** *** DSP engine

    The accumulator is 40 bits wide, held here as a signed integer.
    The sources rely on the reset configuration of the engine (signed
    operands, fractional multiplier mode, accumulator saturation off);
    the two [CORCON] bits that act on the store of an accumulator are
    kept as parameters. *)

Record corcon : Type := Corcon {
  RND : bool;    (* false: convergent rounding (reset); true: conventional *)
  SATDW : bool   (* data-space write saturation (set at reset) *)
}.

Definition corcon_reset : corcon := Corcon false true.

Definition wrap40 (z : Z) : Z := (z + 2 ^ 39) mod 2 ^ 40 - 2 ^ 39.

(** Fractional signed 16x16 multiply: the Q30 product is shifted left
    by one so that it is aligned with the Q31 accumulator. *)
Definition mpy (wm wn : Z) : Z := Z.shiftl (signed16 wm * signed16 wn) 1.

(** [LAC Ws, #0, A]: load the sign-extended word into the accumulator's
    high word, clearing the low word. *)
Definition lac (ws : Z) : Z := wrap40 (Z.shiftl (signed16 ws) 16).

(** [MSC Wm * Wn, A]: multiply and subtract from the accumulator. *)
Definition msc (wm wn acc : Z) : Z := wrap40 (acc - mpy wm wn).

(** [MAC Wm * Wn, A]: multiply and accumulate. *)
Definition mac (wm wn acc : Z) : Z := wrap40 (acc + mpy wm wn).

(** Rounding to the high word.  Conventional: add bit 15 into bit 16.
    Convergent: the same, except that a low word of exactly 0x8000
    increments the high word only when bit 16 is set. *)
Definition round (cfg : corcon) (acc : Z) : Z :=
  let hi := Z.shiftr acc 16 in
  let lo := Z.land acc 0xFFFF in
  if RND cfg then (if 0x8000 <=? lo then hi + 1 else hi)
  else if lo =? 0x8000 then (if Z.testbit acc 16 then hi + 1 else hi)
  else (if 0x8000 <? lo then hi + 1 else hi).

(** [SAC.R A, #0, Wd]: store the rounded high word of the accumulator;
    with [SATDW] a value outside the 1.15 range is written as
    0x7FFF or 0x8000. *)
Definition sac_r (cfg : corcon) (acc : Z) : Z :=
  let hi := round cfg acc in
  if SATDW cfg then
    (if 32767 <? hi then 0x7FFF else if hi <? -32768 then 0x8000 else wrap16 hi)
  else wrap16 hi.

(** A 16-bit load from an array of words at a byte offset from its
    base ([[Ws]] addressing). *)
Definition load (mem : list Z) (offset : Z) : Z :=
  wrap16 (nth (Z.to_nat (Z.shiftr offset 1)) mem 0).

End Dspic.
Import Dspic.

(** ** fp_lib_abs.h *)

(** [abs_Q15]: [res] is bound to [%[val]], [mask] to [%[mask]]. *)
Definition abs_Q15 (arg : Z) : Z :=
  let val := wrap16 arg in
  let mask := 0x8000 in
  (* cpsne %[val], %[mask] ; mov #0x7FFF, %[val] *)
  let val := if cpsne val mask then val else 0x7FFF in
  (* asr %[val], #15, %[mask] *)
  let mask := asr val 15 in
  (* add %[mask], %[val], %[val] *)
  let val := add mask val in
  (* xor %[mask], %[val], %[val] *)
  let val := xor mask val in
  to_int16 val.

(** ** fp_lib_trig.h *)

(** The extrapolation table: 256 pairs [dy[i], y0[i]]. *)
Definition table : list Z := [
    804; 0; 804; 804; 802; 1608; 802; 2410; 799; 3212; 797; 4011; 794; 4808; 791; 5602;
    786; 6393; 783; 7179; 777; 7962; 773; 8739; 766; 9512; 761; 10278; 754; 11039; 746; 11793;
    740; 12539; 731; 13279; 722; 14010; 714; 14732; 705; 15446; 695; 16151; 684; 16846; 674; 17530;
    664; 18204; 651; 18868; 640; 19519; 628; 20159; 616; 20787; 602; 21403; 589; 22005; 576; 22594;
    561; 23170; 548; 23731; 532; 24279; 518; 24811; 503; 25329; 487; 25832; 471; 26319; 455; 26790;
    438; 27245; 422; 27683; 405; 28105; 388; 28510; 370; 28898; 353; 29268; 335; 29621; 317; 29956;
    298; 30273; 281; 30571; 261; 30852; 243; 31113; 224; 31356; 205; 31580; 186; 31785; 166; 31971;
    148; 32137; 127; 32285; 109; 32412; 88; 32521; 69; 32609; 50; 32678; 29; 32728; 10; 32757;
    (-10); 32767; (-29); 32757; (-50); 32728; (-69); 32678; (-88); 32609; (-109); 32521; (-127); 32412; (-148); 32285;
    (-166); 32137; (-186); 31971; (-205); 31785; (-224); 31580; (-243); 31356; (-261); 31113; (-281); 30852; (-298); 30571;
    (-317); 30273; (-335); 29956; (-353); 29621; (-370); 29268; (-388); 28898; (-405); 28510; (-422); 28105; (-438); 27683;
    (-455); 27245; (-471); 26790; (-487); 26319; (-503); 25832; (-518); 25329; (-532); 24811; (-548); 24279; (-561); 23731;
    (-576); 23170; (-589); 22594; (-602); 22005; (-616); 21403; (-628); 20787; (-640); 20159; (-651); 19519; (-664); 18868;
    (-674); 18204; (-684); 17530; (-695); 16846; (-705); 16151; (-714); 15446; (-722); 14732; (-731); 14010; (-740); 13279;
    (-746); 12539; (-754); 11793; (-761); 11039; (-766); 10278; (-773); 9512; (-777); 8739; (-783); 7962; (-786); 7179;
    (-791); 6393; (-794); 5602; (-797); 4808; (-799); 4011; (-802); 3212; (-802); 2410; (-804); 1608; (-804); 804;
    (-804); 0; (-804); (-804); (-802); (-1608); (-802); (-2410); (-799); (-3212); (-797); (-4011); (-794); (-4808); (-791); (-5602);
    (-786); (-6393); (-783); (-7179); (-777); (-7962); (-773); (-8739); (-766); (-9512); (-761); (-10278); (-754); (-11039); (-746); (-11793);
    (-740); (-12539); (-731); (-13279); (-722); (-14010); (-714); (-14732); (-705); (-15446); (-695); (-16151); (-684); (-16846); (-674); (-17530);
    (-664); (-18204); (-651); (-18868); (-640); (-19519); (-628); (-20159); (-616); (-20787); (-602); (-21403); (-589); (-22005); (-576); (-22594);
    (-561); (-23170); (-548); (-23731); (-532); (-24279); (-518); (-24811); (-503); (-25329); (-487); (-25832); (-471); (-26319); (-455); (-26790);
    (-438); (-27245); (-422); (-27683); (-405); (-28105); (-388); (-28510); (-370); (-28898); (-353); (-29268); (-335); (-29621); (-317); (-29956);
    (-298); (-30273); (-281); (-30571); (-261); (-30852); (-243); (-31113); (-224); (-31356); (-205); (-31580); (-186); (-31785); (-166); (-31971);
    (-148); (-32137); (-127); (-32285); (-109); (-32412); (-88); (-32521); (-69); (-32609); (-50); (-32678); (-29); (-32728); (-10); (-32757);
    10; (-32767); 29; (-32757); 50; (-32728); 69; (-32678); 88; (-32609); 109; (-32521); 127; (-32412); 148; (-32285);
    166; (-32137); 186; (-31971); 205; (-31785); 224; (-31580); 243; (-31356); 261; (-31113); 281; (-30852); 298; (-30571);
    317; (-30273); 335; (-29956); 353; (-29621); 370; (-29268); 388; (-28898); 405; (-28510); 422; (-28105); 438; (-27683);
    455; (-27245); 471; (-26790); 487; (-26319); 503; (-25832); 518; (-25329); 532; (-24811); 548; (-24279); 561; (-23731);
    576; (-23170); 589; (-22594); 602; (-22005); 616; (-21403); 628; (-20787); 640; (-20159); 651; (-19519); 664; (-18868);
    674; (-18204); 684; (-17530); 695; (-16846); 705; (-16151); 714; (-15446); 722; (-14732); 731; (-14010); 740; (-13279);
    746; (-12539); 754; (-11793); 761; (-11039); 766; (-10278); 773; (-9512); 777; (-8739); 783; (-7962); 786; (-7179);
    791; (-6393); 794; (-5602); 797; (-4808); 799; (-4011); 802; (-3212); 802; (-2410); 804; (-1608); 804; (-804)
  ].

(** Slope and intercept of segment [i]. *)
Definition dy (i : nat) : Z := nth (2 * i) table 0.
Definition y0 (i : nat) : Z := nth (2 * i + 1) table 0.

(** [sin_Q15]: [%[y]] is constrained to [W2] (constraint [c]), so the
    product of [mul.us] lands in [W2:W3] and [w3] is its high word.
    [yTable] is kept as the byte offset of the pointer from [table]. *)
Definition sin_Q15 (x : Z) : Z :=
  let x := wrap16 x in
  let yTable := 0 in
  (* lsr %[x], #0x8, %[y] *)
  let y := lsr x 8 in
  (* sl %[y], #2, %[y] *)
  let y := sl y 2 in
  (* add %[yTable], %[y], %[yTable] *)
  let yTable := add yTable y in
  (* sl %[x], #0x8, %[x] *)
  let x := sl x 8 in
  (* mul.us %[x], [%[yTable]++], %[y] *)
  let '(w2, w3) := mul_us x (load table yTable) in
  let yTable := yTable + 2 in
  (* add w3, [%[yTable]], %[y] *)
  let y := add w3 (load table yTable) in
  to_int16 y.

(** ** fp_lib_mul.h *)

(** [res = muluu(arg1.high, arg2); temp = muluu(arg1.low, arg2);
    res += temp.high;] *)
Definition mul_Q1616_Q16 (arg1 arg2 : Z) : Z :=
  let res := muluu (ULong.high arg1) arg2 in
  let temp := muluu (ULong.low arg1) arg2 in
  let res := wrap32 (res + ULong.high temp) in
  res.

(** [res = muluu(arg1.low, arg2)], then the assembly adds the low word
    of [arg1.high * arg2] to the high word of [res] ([%d] names the high
    register of a pair). *)
Definition mul_Q1616_UINT (arg1 arg2 : Z) : Z :=
  let res := muluu (ULong.low arg1) arg2 in
  (* mulw.uu %d[arg1], %[arg2], w0 *)
  let w0 := mulw_uu (ULong.high arg1) arg2 in
  (* add w0, %d[res], %d[res] *)
  let res_high := add w0 (ULong.high res) in
  ULong.join res_high (ULong.low res).

(** [return mul_Q1616_UINT(arg1, arg2.high) + mul_Q1616_Q16(arg1, arg2.low);] *)
Definition mul_Q1616_Q1616 (arg1 arg2 : Z) : Z :=
  wrap32 (mul_Q1616_UINT arg1 (ULong.high arg2)
          + mul_Q1616_Q16 arg1 (ULong.low arg2)).

(** ** fp_lib_div.h *)

Notation "' pat <- e ;; k" :=
  (match e with Some pat => k | None => None end)
  (at level 61, pat pattern, e at next level, right associativity).

(** [div_Q16_Q16]: [%d[res]] is the high word of the result pair,
    [%[res]] the low word. *)
Definition div_Q16_Q16 (num den : Z) : option Z :=
  (* repeat #0x11 ; div.u %[num], %[den] *)
  ' (w0, w1) <- div_u num den ;;
  (* mov w0, %d[res] *)
  let res_high := w0 in
  (* lsr w1, #0x1, w1 *)
  let w1 := lsr w1 1 in
  (* lsr %[den], #0x1, %[den] *)
  let den := lsr den 1 in
  (* repeat #0x11 ; divf w1, %[den] *)
  ' (w0, w1) <- divf w1 den ;;
  (* sl w0, #0x1, %[res] *)
  let res_low := sl w0 1 in
  Some (ULong.join res_high res_low).

(** ** fp_lib_interp.h *)

(** [interpLinear]: the operands are [y1], [y2] and [x >> 1]. *)
Definition interpLinear (cfg : corcon) (y1 y2 x : Z) : Z :=
  let y1 := wrap16 y1 in
  let y2 := wrap16 y2 in
  let x := wrap16 (Z.shiftr x 1) in
  (* lac %[y1], #0, A *)
  let A := lac y1 in
  (* msc %[y1] * %[x], A *)
  let A := msc y1 x A in
  (* mac %[y2] * %[x], A *)
  let A := mac y2 x A in
  (* sac.r A, #0, %[y] *)
  let y := sac_r cfg A in
  to_int16 y.


(** * Reference definitions used by the statements *)

(** ** Sine table *)

(** What the instruction sequence computes, segment by segment: the
    intercept of the segment selected by the high byte of the phase plus
    the slope scaled by the low byte, the scaling rounding downwards. *)
Definition sin_segment (x : Z) : Z :=
  let i := Z.to_nat (wrap16 x / 256) in
  y0 i + (dy i * (wrap16 x mod 256)) / 256.

(** Per-segment facts read off the table: both entries are 16-bit
    signed values and the line stays inside [-32767, 32767] at both
    ends of the segment. *)
Definition segment_ok (i : nat) : bool :=
  (-32768 <=? dy i) && (dy i <=? 32767) &&
  (-32768 <=? y0 i) && (y0 i <=? 32767) &&
  (-32767 <=? y0 i + Z.min 0 ((dy i * 255) / 256)) &&
  (y0 i + Z.max 0 ((dy i * 255) / 256) <=? 32767).

(** Monotone runs of a sequence indexed by naturals. *)
Definition rises (f : nat -> Z) (a b : nat) : Prop :=
  forall i j : nat, (a <= i)%nat -> (i <= j)%nat -> (j <= b)%nat -> f i <= f j.

Definition falls (f : nat -> Z) (a b : nat) : Prop :=
  forall i j : nat, (a <= i)%nat -> (i <= j)%nat -> (j <= b)%nat -> f j <= f i.

(** Non-decreasing up to some index and non-increasing from it on. *)
Definition rises_then_falls (f : nat -> Z) (last : nat) : Prop :=
  exists k : nat, (k <= last)%nat /\ rises f 0 k /\ falls f k last.

Definition step_up (f : nat -> Z) (i : nat) : bool := f i <=? f (S i).
Definition step_down (f : nat -> Z) (i : nat) : bool := f (S i) <=? f i.

(** * The remaining functions of the library *)

(** ** 32-bit signed values and the [Long] union *)

Definition signed32 (w : Z) : Z :=
  if Z.testbit w 31 then w - 2 ^ 32 else w.

(** Conversion of an integer to [int32_t]. *)
Definition to_int32 (z : Z) : Z := signed32 (wrap32 z).

Definition in_int32 (z : Z) : Prop := - 2 ^ 31 <= z < 2 ^ 31.

(** [struct { uint16_t low; int16_t high; }] overlaid on an [int32_t]:
    both halves are read from the 32-bit pattern of the value, the high
    one as a signed word. *)
Module Long.
Definition low (value : Z) : Z := ULong.low (wrap32 value).
Definition high (value : Z) : Z := signed16 (ULong.high (wrap32 value)).
End Long.

(** ** Further instructions *)

Module DspicMore.

(** [MUL.SS Wb, Ws, Wnd], reached through [__builtin_mulss]: the signed
    32-bit product of two signed words. *)
Definition mulss (wb ws : Z) : Z := to_int32 (signed16 wb * signed16 ws).

(** [MUL.SU Wb, Ws, Wnd], reached through [__builtin_mulsu]: signed [Wb]
    times unsigned [Ws], as a signed 32-bit value. *)
Definition mulsu (wb ws : Z) : Z := to_int32 (signed16 wb * ws).

(** [AND #lit10, Wn]. *)
Definition and_lit (lit10 wn : Z) : Z := Z.land lit10 wn.

(** [LAC Ws, #Slit4, A]: the word is sign-extended into the high word
    of the accumulator and the whole is shifted arithmetically, to the
    right for a positive [Slit4] and to the left for a negative one. *)
Definition lac_sh (ws slit4 : Z) : Z :=
  wrap40 (Z.shiftr (Z.shiftl (signed16 ws) 16) slit4).

(** [SAC.R A, #Slit4, Wd]: the accumulator is shifted as for [LAC],
    then rounded and stored as by [sac_r]. *)
Definition sac_r_sh (cfg : corcon) (acc slit4 : Z) : Z :=
  sac_r cfg (wrap40 (Z.shiftr acc slit4)).

End DspicMore.
Import DspicMore.

(** ** fp_lib_typeconv.h, continued *)

(** [mul.uu %[arg], #1, %[res]]: the product with 1 fills the register
    pair of the [_Q1516] result. *)
Definition convert_Q16_Q1516 (arg : Z) : Z :=
  let res := muluu arg 1 in
  to_int32 res.

(** [if (((Long) arg).high == 0) res = ((Long) arg).low;
     else res = ~(((Long) arg).high >> 15);] *)
Definition convert_Q1516_Q16 (arg : Z) : Z :=
  if Long.high arg =? 0 then Long.low arg
  else wrap16 (Z.lnot (Z.shiftr (Long.high arg) 15)).

(** ** fp_lib_mul.h, continued *)

(** [Long res = {.value = __builtin_mulss(arg1, arg2) << 1};
    return res.high;] *)
Definition mul_Q15_Q15 (arg1 arg2 : Z) : Z :=
  let res := to_int32 (Z.shiftl (mulss (wrap16 arg1) (wrap16 arg2)) 1) in
  Long.high res.

(** [Long res = {.value = __builtin_mulsu(arg1, arg2)}; return res.high;] *)
Definition mul_Q15_Q16 (arg1 arg2 : Z) : Z :=
  let res := mulsu (wrap16 arg1) arg2 in
  Long.high res.

(** [Long res = {.value = __builtin_mulsu(arg1, ((ULong) arg2).high)};
    return res.low + mul_Q15_Q16(arg1, ((ULong) arg2).low);] *)
Definition mul_Q15_Q1616 (arg1 arg2 : Z) : Z :=
  let res := mulsu (wrap16 arg1) (ULong.high arg2) in
  to_int16 (Long.low res + mul_Q15_Q16 arg1 (ULong.low arg2)).

(** [ULong res = {.value = __builtin_muluu(arg1, arg2)}; return res.high;] *)
Definition mul_Q16_Q16 (arg1 arg2 : Z) : Z :=
  let res := muluu arg1 arg2 in
  ULong.high res.

(** [res = muluu(arg1.high, arg2); temp = muluu(arg1.low, arg2);
    res += temp.high;] *)
Definition mul_Q32_Q16 (arg1 arg2 : Z) : Z :=
  let res := muluu (ULong.high arg1) arg2 in
  let temp := muluu (ULong.low arg1) arg2 in
  let res := wrap32 (res + ULong.high temp) in
  res.

(** [res = muluu(arg2, arg1.low)], then the assembly adds the low word
    of [arg2 * arg1.high] to the high word of [res]. *)
Definition mul_Q32_UINT (arg1 arg2 : Z) : Z :=
  let res := muluu arg2 (ULong.low arg1) in
  (* mulw.uu %[arg2], %d[arg1], w0 *)
  let w0 := mulw_uu arg2 (ULong.high arg1) in
  (* add w0, %d[res], %d[res] *)
  let res_high := add w0 (ULong.high res) in
  ULong.join res_high (ULong.low res).

(** Data memory as seen through a [_Q15 *]: a map from element
    positions to [int16_t] values; [p++] moves to the next position.
    Pointers are not wrapped at the end of the data space. *)
Definition mem : Type := Z -> Z.

Definition store (m : mem) (p v : Z) : mem :=
  fun q => if q =? p then v else m q.

(** The body of the [do] loop of [mul_aQ15_Q16], run [n] times:
    [mul.us %[val], [%[src]++], w0] leaves the product in [w0:w1], and
    [mov w1, [%[dst]++]] stores its high word. *)
Fixpoint mul_aQ15_Q16_loop (n : nat) (val : Z) (m : mem) (src dst : Z) : mem :=
  match n with
  | O => m
  | S n' =>
      let '(w0, w1) := mul_us val (wrap16 (m src)) in
      let m := store m dst (to_int16 w1) in
      mul_aQ15_Q16_loop n' val m (src + 1) (dst + 1)
  end.

(** [mul_aQ15_Q16]: the loop counter register receives [len - 1] and
    [do Wn, label] runs its body [Wn + 1] times. *)
Definition mul_aQ15_Q16 (m : mem) (src val dst len : Z) : mem :=
  let count := wrap16 (len - 1) in
  mul_aQ15_Q16_loop (Z.to_nat (count + 1)) val m src dst.

(** ** fp_lib_interp.h, continued *)

(** [interpLUT_256_Q15]: [yTable] is the array of samples, the pointer
    into it is kept as a byte offset.  [movsac] and [msc] prefetch the
    word under the pointer into [%[y]]; the prefetch of [msc] takes
    effect after its multiplication. *)
Definition interpLUT_256_Q15 (cfg : corcon) (yTable : list Z) (x : Z) : Z :=
  let p := 0 in
  (* lsr %[x], #0x8, %[y] *)
  let y := lsr x 8 in
  (* add %[y], %[y], %[y] *)
  let y := add y y in
  (* add %[yTable], %[y], %[yTable] *)
  let p := add p y in
  (* and #0xff, %[x] *)
  let x := and_lit 0xff x in
  (* movsac A, [%[yTable]]+=2, %[y] *)
  let y := load yTable p in
  let p := p + 2 in
  (* lac %[y], #7, A *)
  let A := lac_sh y 7 in
  (* msc %[y] * %[x], A, [%[yTable]], %[y] *)
  let A := msc y x A in
  let y := load yTable p in
  (* mac %[y] * %[x], A *)
  let A := mac y x A in
  (* sac.r A, #-7, %[y] *)
  let y := sac_r_sh cfg A (-7) in
  to_int16 y.

(** ** Further reference definitions *)

(** Relations the table entries keep with one another, per segment:
    the slope is the step to the next intercept (cyclically), the
    entries half a period away are the negated ones, and the segment
    mirrored about phase 0 has the same slope and the negated end
    point. *)
Definition next_segment (i : nat) : nat := Z.to_nat ((Z.of_nat i + 1) mod 256).
Definition opposite_segment (i : nat) : nat := Z.to_nat ((Z.of_nat i + 128) mod 256).
Definition mirror_segment (i : nat) : nat := (255 - i)%nat.
Definition negated_segment (i : nat) : nat := Z.to_nat ((256 - Z.of_nat i) mod 256).

Definition table_shape_ok (i : nat) : bool :=
  (dy i =? y0 (next_segment i) - y0 i) &&
  (y0 (opposite_segment i) =? - y0 i) &&
  (dy (opposite_segment i) =? - dy i) &&
  (y0 (mirror_segment i) =? - (y0 i + dy i)) &&
  (dy (mirror_segment i) =? dy i) &&
  (y0 (negated_segment i) =? - y0 i).

(** Sign of the slope by quadrant, and sign of the line over the whole
    segment by half period. *)
Definition quadrant_ok (i : nat) : bool :=
  (if (i <? 64)%nat || (192 <=? i)%nat then 0 <=? dy i else dy i <=? 0) &&
  (if (i <? 128)%nat
   then 0 <=? y0 i + Z.min 0 ((dy i * 255) / 256)
   else y0 i + Z.max 0 ((dy i * 255) / 256) <=? 0).

(** * Properties *)

Ltac pow_consts :=
  change (2 ^ 16) with 65536 in *; change (2 ^ 32) with 4294967296 in *.

(** ** Word arithmetic *)

Section WordFacts.

Lemma wrap16_small (z : Z) : 0 <= z < 65536 -> wrap16 z = z.
Proof. intros H. unfold wrap16. apply Z.mod_small. lia. Qed.

Lemma wrap16_neg (z : Z) : -65536 <= z < 0 -> wrap16 z = z + 65536.
Proof.
  intros H. unfold wrap16. change (2 ^ 16) with 65536.
  symmetry. apply (Z.mod_unique z 65536 (-1)); lia.
Qed.

Lemma wrap16_range (z : Z) : 0 <= wrap16 z < 65536.
Proof. unfold wrap16. apply Z.mod_pos_bound. reflexivity. Qed.

Lemma testbit15 (w : Z) :
  0 <= w < 65536 -> Z.testbit w 15 = (32768 <=? w).
Proof.
  intros H.
  assert (E : Z.b2z (Z.testbit w 15) = (w / 2 ^ 15) mod 2)
    by (apply Z.testbit_spec'; lia).
  change (2 ^ 15) with 32768 in E.
  destruct (Z.leb_spec 32768 w) as [Hge | Hlt].
  - assert (w / 32768 = 1) by (symmetry; apply (Z.div_unique w 32768 1 (w - 32768)); lia).
    destruct (Z.testbit w 15); [reflexivity | ].
    rewrite H0 in E. discriminate E.
  - rewrite Z.div_small in E by lia.
    destruct (Z.testbit w 15); [discriminate E | reflexivity].
Qed.

Lemma signed16_low (w : Z) : 0 <= w < 32768 -> signed16 w = w.
Proof.
  intros H. unfold signed16. rewrite testbit15 by lia.
  destruct (Z.leb_spec 32768 w); [lia | reflexivity].
Qed.

Lemma signed16_high (w : Z) : 32768 <= w < 65536 -> signed16 w = w - 65536.
Proof.
  intros H. unfold signed16. rewrite testbit15 by lia.
  destruct (Z.leb_spec 32768 w); [reflexivity | lia].
Qed.

(** Writing a signed value to a register and reading it back. *)
Lemma signed16_wrap16 (z : Z) : in_int16 z -> signed16 (wrap16 z) = z.
Proof.
  unfold in_int16. intros H.
  destruct (Z.lt_ge_cases z 0).
  - rewrite wrap16_neg by lia. rewrite signed16_high; lia.
  - rewrite wrap16_small by lia. apply signed16_low. lia.
Qed.

Lemma to_int16_id (z : Z) : in_int16 z -> to_int16 z = z.
Proof. apply signed16_wrap16. Qed.

(** Bitwise complement of a 16-bit pattern. *)
Lemma lxor_ones16 (v : Z) : 0 <= v < 65536 -> Z.lxor 65535 v = 65535 - v.
Proof.
  intros H.
  assert (E : 65535 - v = Z.land (Z.lnot v) (Z.ones 16)).
  { rewrite Z.land_ones by lia. unfold Z.lnot.
    apply (Z.mod_unique _ _ (-1)).
    - left. change (2 ^ 16) with 65536. lia.
    - change (2 ^ 16) with 65536. lia. }
  rewrite E. apply Z.bits_inj'. intros n Hn.
  rewrite Z.lxor_spec, Z.land_spec, Z.lnot_spec by assumption.
  change 65535 with (Z.ones 16).
  destruct (Z.lt_ge_cases n 16) as [Hlt | Hge].
  - rewrite Z.ones_spec_low by lia. rewrite andb_true_r. reflexivity.
  - rewrite Z.ones_spec_high by lia. rewrite andb_false_r. simpl.
    apply Z.bits_above_log2; [lia | ].
    destruct (Z.eq_dec v 0) as [-> | Hv]; [simpl; lia | ].
    apply Z.lt_le_trans with 16; [ | assumption].
    apply Z.log2_lt_pow2; [lia | ]. change (2 ^ 16) with 65536. lia.
Qed.

Lemma ULong_low_mod (v : Z) : ULong.low v = v mod 2 ^ 16.
Proof. unfold ULong.low. change 0xFFFF with (Z.ones 16). apply Z.land_ones. lia. Qed.

Lemma ULong_high_div (v : Z) : ULong.high v = v / 2 ^ 16.
Proof. unfold ULong.high. apply Z.shiftr_div_pow2. lia. Qed.

Lemma ULong_join_add (hi lo : Z) :
  0 <= lo < 65536 -> ULong.join hi lo = hi * 2 ^ 16 + lo.
Proof.
  intros H. unfold ULong.join.
  rewrite <- Z.shiftl_mul_pow2 by lia.
  rewrite <- Z.lxor_lor, <- Z.add_nocarry_lxor; try reflexivity.
  all: apply Z.bits_inj'; intros n Hn; rewrite Z.land_spec, Z.bits_0.
  all: destruct (Z.lt_ge_cases n 16) as [Hlt | Hge].
  all: try (rewrite Z.shiftl_spec_low by lia; reflexivity).
  all: rewrite andb_comm; replace (Z.testbit lo n) with false; try reflexivity.
  all: symmetry; apply Z.bits_above_log2; [lia | ].
  all: destruct (Z.eq_dec lo 0) as [-> | Hv]; [simpl; lia | ].
  all: apply Z.lt_le_trans with 16; [ | assumption].
  all: apply Z.log2_lt_pow2; [lia | ]; change (2 ^ 16) with 65536; lia.
Qed.

End WordFacts.

(** ** Conversions between Q0.15 and Q0.16 *)

Section Typeconv.

Lemma shiftr15_sign (arg : Z) :
  in_int16 arg -> Z.shiftr arg 15 = if arg <? 0 then -1 else 0.
Proof.
  unfold in_int16. intros H. rewrite Z.shiftr_div_pow2 by lia.
  change (2 ^ 15) with 32768.
  destruct (Z.ltb_spec arg 0).
  - symmetry. apply (Z.div_unique arg 32768 (-1) (arg + 32768)); lia.
  - apply Z.div_small. lia.
Qed.

Lemma shiftr14_top (arg : Z) :
  0 <= arg <= 32767 -> Z.shiftr arg 14 = if arg <? 0x4000 then 0 else 1.
Proof.
  intros H. rewrite Z.shiftr_div_pow2 by lia. change (2 ^ 14) with 16384.
  destruct (Z.ltb_spec arg 0x4000).
  - apply Z.div_small. lia.
  - symmetry. apply (Z.div_unique arg 16384 1 (arg - 16384)); lia.
Qed.

Lemma convert_Q15_Q16_Naive_range (arg : Z) :
  0 <= convert_Q15_Q16_Naive arg < 65536.
Proof. unfold convert_Q15_Q16_Naive. apply wrap16_range. Qed.

(** The shape of the naive conversion on the non-negative half. *)
Lemma convert_Q15_Q16_Naive_nonneg (arg : Z) :
  0 <= arg <= 32767 ->
  convert_Q15_Q16_Naive arg = 2 * arg + (if arg <? 0x4000 then 0 else 1).
Proof.
  intros H. unfold convert_Q15_Q16_Naive.
  rewrite shiftr14_top by assumption.
  rewrite Z.shiftl_mul_pow2 by lia. change (2 ^ 1) with 2.
  rewrite (Z.mul_comm arg 2). apply wrap16_small.
  destruct (arg <? 0x4000); lia.
Qed.

Lemma convert_Q15_Q16_nonneg (arg : Z) :
  0 <= arg <= 32767 -> convert_Q15_Q16 arg = convert_Q15_Q16_Naive arg.
Proof.
  intros H. unfold convert_Q15_Q16.
  rewrite shiftr15_sign by (unfold in_int16; lia).
  destruct (Z.ltb_spec arg 0); [lia | ].
  change (wrap16 (Z.lnot 0)) with (Z.ones 16).
  rewrite Z.land_ones by lia.
  apply Z.mod_small. apply convert_Q15_Q16_Naive_range.
Qed.

Lemma convert_Q15_Q16_neg (arg : Z) :
  -32768 <= arg < 0 -> convert_Q15_Q16 arg = 0.
Proof.
  intros H. unfold convert_Q15_Q16.
  rewrite shiftr15_sign by (unfold in_int16; lia).
  destruct (Z.ltb_spec arg 0); [ | lia].
  change (wrap16 (Z.lnot (-1))) with 0.
  apply Z.land_0_r.
Qed.

(** The round trip through Q0.16 gives the argument back unchanged. *)
Lemma convert_roundtrip_exact (x : Z) :
  0 <= x <= 0x7FFF -> convert_Q16_Q15 (convert_Q15_Q16 x) = x.
Proof.
  intros H. rewrite convert_Q15_Q16_nonneg by lia.
  rewrite convert_Q15_Q16_Naive_nonneg by lia.
  unfold convert_Q16_Q15. rewrite Z.shiftr_div_pow2 by lia.
  change (2 ^ 1) with 2.
  replace ((2 * x + (if x <? 0x4000 then 0 else 1)) / 2) with x.
  - apply to_int16_id. unfold in_int16. lia.
  - destruct (x <? 0x4000).
    + apply (Z.div_unique _ 2 x 0); lia.
    + apply (Z.div_unique _ 2 x 1); lia.
Qed.

End Typeconv.

(** C4: the saturating conversion maps every negative Q0.15 input to 0
    and agrees with the naive conversion on every non-negative input. *)
Theorem convert_Q15_Q16_saturating (x : Z) :
  in_int16 x ->
  (x < 0 -> convert_Q15_Q16 x = 0) /\
  (0 <= x -> convert_Q15_Q16 x = convert_Q15_Q16_Naive x).
Proof.
  unfold in_int16. intros Hx. split; intros Hs.
  - apply convert_Q15_Q16_neg. lia.
  - apply convert_Q15_Q16_nonneg. lia.
Qed.

Lemma convert_Q15_Q16_saturating_witness :
  convert_Q15_Q16 (-5) = 0 /\ convert_Q15_Q16 5 = convert_Q15_Q16_Naive 5.
Proof.
  split.
  - apply (convert_Q15_Q16_saturating (-5)); unfold in_int16; lia.
  - apply (convert_Q15_Q16_saturating 5); unfold in_int16; lia.
Defined.

(** C5, as stated: the naive conversion of a non-negative argument is
    twice the argument.  It fails at 0x4000, whose image is 0x8001. *)
Lemma convert_Q15_Q16_Naive_not_double :
  0 <= 0x4000 <= 0x7FFF /\
  convert_Q15_Q16_Naive 0x4000 = 0x8001 /\
  convert_Q15_Q16_Naive 0x4000 <> 2 * 0x4000.
Proof.
  split; [lia | ]. split; [reflexivity | ].
  intros E. vm_compute in E. discriminate E.
Qed.

(** C5, amended: on a non-negative argument the naive conversion returns
    [2 * arg] below 0x4000 and [2 * arg + 1] from 0x4000 on (bit 14 of
    the argument is copied into the new least significant bit). *)
Theorem convert_Q15_Q16_Naive_value (arg : Z) :
  0 <= arg <= 0x7FFF ->
  convert_Q15_Q16_Naive arg = 2 * arg + (if arg <? 0x4000 then 0 else 1).
Proof. intros H. apply convert_Q15_Q16_Naive_nonneg. lia. Qed.

Lemma convert_Q15_Q16_Naive_value_witness :
  convert_Q15_Q16_Naive 0x7FFF = 2 * 0x7FFF + (if 0x7FFF <? 0x4000 then 0 else 1).
Proof. apply (convert_Q15_Q16_Naive_value 0x7FFF). lia. Defined.

(** C6: for every x in [0, 0x7FFF], converting to Q0.16 and back gives a
    value at most 1 LSB away from x. *)
Theorem convert_roundtrip_within_1 (x : Z) :
  0 <= x <= 0x7FFF ->
  Z.abs (convert_Q16_Q15 (convert_Q15_Q16 x) - x) <= 1.
Proof. intros H. rewrite convert_roundtrip_exact by assumption. lia. Qed.

Lemma convert_roundtrip_within_1_witness :
  Z.abs (convert_Q16_Q15 (convert_Q15_Q16 0x1234) - 0x1234) <= 1.
Proof. apply (convert_roundtrip_within_1 0x1234). lia. Defined.

(** ** Absolute value *)

Section Abs.

Lemma abs_Q15_negative (x : Z) : -32768 < x < 0 -> abs_Q15 x = - x.
Proof.
  intros H. unfold abs_Q15, cpsne, asr, add, xor.
  rewrite (wrap16_neg x) by lia.
  destruct (Z.eqb_spec (x + 65536) 0x8000) as [E | _]; [lia | ]. simpl negb. cbv iota.
  rewrite signed16_high by lia.
  replace (x + 65536 - 65536) with x by lia.
  rewrite shiftr15_sign by (unfold in_int16; lia).
  destruct (Z.ltb_spec x 0); [ | lia].
  change (wrap16 (-1)) with 65535.
  replace (wrap16 (65535 + (x + 65536))) with (x + 65535)
    by (unfold wrap16; apply (Z.mod_unique _ _ 1); change (2 ^ 16) with 65536; lia).
  rewrite lxor_ones16 by lia.
  replace (65535 - (x + 65535)) with (- x) by lia.
  apply to_int16_id. unfold in_int16. lia.
Qed.

Lemma abs_Q15_nonneg (x : Z) : 0 <= x <= 32767 -> abs_Q15 x = x.
Proof.
  intros H. unfold abs_Q15, cpsne, asr, add, xor.
  rewrite (wrap16_small x) by lia.
  destruct (Z.eqb_spec x 0x8000) as [E | _]; [lia | ]. simpl negb. cbv iota.
  rewrite signed16_low by lia.
  rewrite shiftr15_sign by (unfold in_int16; lia).
  destruct (Z.ltb_spec x 0); [lia | ].
  change (wrap16 0) with 0. rewrite Z.add_0_l, Z.lxor_0_l.
  rewrite wrap16_small by lia.
  apply to_int16_id. unfold in_int16. lia.
Qed.

End Abs.

(** C3: [abs_Q15] returns 0x7FFF on 0x8000 (the value -32768) and, on
    every other 16-bit input, the two's-complement absolute value: the
    negation when the sign bit of the pattern is set, the input
    otherwise; in particular it maps -5 and 5 to 5. *)
Theorem abs_Q15_spec (x : Z) :
  in_int16 x ->
  abs_Q15 (to_int16 0x8000) = 0x7FFF /\
  (x <> to_int16 0x8000 ->
   abs_Q15 x = if Z.testbit (wrap16 x) 15 then - x else x) /\
  abs_Q15 (-5) = 5 /\ abs_Q15 5 = 5.
Proof.
  unfold in_int16. intros Hx.
  split; [reflexivity | ]. split; [ | split; reflexivity].
  change (to_int16 0x8000) with (-32768). intros Hne.
  rewrite testbit15 by apply wrap16_range.
  destruct (Z.lt_ge_cases x 0).
  - rewrite wrap16_neg by lia.
    destruct (Z.leb_spec 32768 (x + 65536)); [ | lia].
    apply abs_Q15_negative. lia.
  - rewrite wrap16_small by lia.
    destruct (Z.leb_spec 32768 x); [lia | ].
    apply abs_Q15_nonneg. lia.
Qed.

Lemma abs_Q15_spec_witness :
  abs_Q15 (-32767) = if Z.testbit (wrap16 (-32767)) 15 then - -32767 else -32767.
Proof.
  apply (abs_Q15_spec (-32767)).
  - unfold in_int16. lia.
  - vm_compute. discriminate.
Defined.

(** ** Q16.16 multiplication *)

Section Mul.

Lemma muluu_exact (a b : Z) :
  0 <= a < 65536 -> 0 <= b < 65536 -> muluu a b = a * b.
Proof.
  intros Ha Hb. unfold muluu, wrap32. apply Z.mod_small.
  pow_consts. nia.
Qed.

Lemma split_product (a c : Z) :
  a * c = (a / 65536 * c) * 65536 + (a mod 65536) * c.
Proof.
  rewrite (Z.div_mod a 65536) at 1 by lia. ring.
Qed.

(** Q16.16 times an integer: the low 32 bits of the product. *)
Lemma mul_Q1616_UINT_spec (arg1 arg2 : Z) :
  in_uint32 arg1 -> 0 <= arg2 < 65536 ->
  mul_Q1616_UINT arg1 arg2 = (arg1 * arg2) mod 2 ^ 32.
Proof.
  unfold in_uint32. intros H1 H2. unfold mul_Q1616_UINT, mulw_uu, add, wrap16.
  rewrite !ULong_low_mod, !ULong_high_div. pow_consts.
  assert (Hl : 0 <= arg1 mod 65536 < 65536) by (apply Z.mod_pos_bound; lia).
  rewrite muluu_exact by lia.
  rewrite ULong_join_add by (apply Z.mod_pos_bound; lia). pow_consts.
  rewrite (split_product arg1 arg2).
  assert (Hp : 0 <= arg1 mod 65536 * arg2) by nia.
  remember (arg1 mod 65536 * arg2) as p eqn:Ep.
  remember (arg1 / 65536 * arg2) as q eqn:Eq.
  clear Ep Eq Hl. Z.div_mod_to_equations. lia.
Qed.

(** Q16.16 times Q0.16: the product with its 16 lowest bits dropped. *)
Lemma mul_Q1616_Q16_spec (arg1 arg2 : Z) :
  in_uint32 arg1 -> 0 <= arg2 < 65536 ->
  mul_Q1616_Q16 arg1 arg2 = (arg1 * arg2) / 2 ^ 16.
Proof.
  unfold in_uint32. intros H1 H2. unfold mul_Q1616_Q16.
  rewrite !ULong_low_mod, !ULong_high_div. pow_consts.
  assert (Hl : 0 <= arg1 mod 65536 < 65536) by (apply Z.mod_pos_bound; lia).
  assert (Hh : 0 <= arg1 / 65536 < 65536)
    by (split; [apply Z.div_pos | apply Z.div_lt_upper_bound]; lia).
  rewrite !muluu_exact by lia.
  rewrite (split_product arg1 arg2).
  rewrite Z.div_add_l by lia.
  unfold wrap32. pow_consts. apply Z.mod_small.
  assert (0 <= arg1 mod 65536 * arg2 <= 65535 * 65535) by nia.
  assert (0 <= arg1 / 65536 * arg2 <= 65535 * 65535) by nia.
  Z.div_mod_to_equations. lia.
Qed.

End Mul.

(** C7: for all 32-bit Q16.16 operands, [mul_Q1616_Q1616 a b] is
    [floor (a * b / 2^16) mod 2^32]: the partial products of the halves
    are summed at their weights and the carry out of bit 31 is lost. *)
Theorem mul_Q1616_Q1616_spec (a b : Z) :
  in_uint32 a -> in_uint32 b ->
  mul_Q1616_Q1616 a b = ((a * b) / 2 ^ 16) mod 2 ^ 32.
Proof.
  intros Ha Hb. unfold mul_Q1616_Q1616.
  assert (Hl : 0 <= ULong.low b < 65536)
    by (rewrite ULong_low_mod; apply Z.mod_pos_bound; lia).
  assert (Hh : 0 <= ULong.high b < 65536).
  { rewrite ULong_high_div. unfold in_uint32 in Hb.
    change (2 ^ 32) with 4294967296 in Hb. change (2 ^ 16) with 65536.
    split; [apply Z.div_pos | apply Z.div_lt_upper_bound]; lia. }
  rewrite mul_Q1616_UINT_spec, mul_Q1616_Q16_spec by assumption.
  unfold wrap32. rewrite Z.add_mod_idemp_l by lia.
  f_equal.
  assert (E : a * b = a * ULong.high b * 2 ^ 16 + a * ULong.low b).
  { rewrite ULong_low_mod, ULong_high_div.
    rewrite (Z.div_mod b (2 ^ 16)) at 1 by lia. ring. }
  rewrite E. rewrite Z.div_add_l by lia. reflexivity.
Qed.

Lemma mul_Q1616_Q1616_spec_witness :
  mul_Q1616_Q1616 0xFFFFFFFF 0x00018000
  = ((0xFFFFFFFF * 0x00018000) / 2 ^ 16) mod 2 ^ 32.
Proof.
  apply (mul_Q1616_Q1616_spec 0xFFFFFFFF 0x00018000); unfold in_uint32; lia.
Defined.

(** ** Sine approximation *)

Section Sine.

Lemma segments_ok : forallb segment_ok (seq 0 256) = true.
Proof. vm_compute. reflexivity. Qed.

Lemma segment_facts (i : nat) :
  (i < 256)%nat ->
  in_int16 (dy i) /\ in_int16 (y0 i) /\
  -32767 <= y0 i + Z.min 0 ((dy i * 255) / 256) /\
  y0 i + Z.max 0 ((dy i * 255) / 256) <= 32767.
Proof.
  intros Hi. pose proof segments_ok as H.
  rewrite forallb_forall in H.
  assert (Hok : segment_ok i = true) by (apply H; apply in_seq; lia).
  unfold segment_ok in Hok.
  repeat (apply andb_prop in Hok; destruct Hok as [Hok ?]).
  unfold in_int16. repeat split; apply Z.leb_le; assumption.
Qed.

Lemma load_dy (i : Z) :
  0 <= i -> load table (4 * i) = wrap16 (dy (Z.to_nat i)).
Proof.
  intros Hi. unfold load, dy. rewrite Z.shiftr_div_pow2 by lia.
  replace (4 * i / 2 ^ 1) with (2 * i)
    by (apply (Z.div_unique _ _ _ 0); change (2 ^ 1) with 2; lia).
  rewrite Z2Nat.inj_mul by lia. reflexivity.
Qed.

Lemma load_y0 (i : Z) :
  0 <= i -> load table (4 * i + 2) = wrap16 (y0 (Z.to_nat i)).
Proof.
  intros Hi. unfold load, y0. rewrite Z.shiftr_div_pow2 by lia.
  replace ((4 * i + 2) / 2 ^ 1) with (2 * i + 1)
    by (apply (Z.div_unique _ _ _ 0); change (2 ^ 1) with 2; lia).
  rewrite Z2Nat.inj_add, Z2Nat.inj_mul by lia. reflexivity.
Qed.

(** The high word of a 32-bit product whose first factor sits in the
    upper byte. *)
Lemma high_of_scaled (p : Z) :
  ULong.high (wrap32 (256 * p)) = (p / 256) mod 65536.
Proof.
  rewrite ULong_high_div. unfold wrap32.
  change (2 ^ 16) with 65536. change (2 ^ 32) with 4294967296.
  Z.div_mod_to_equations. lia.
Qed.

(** The register-level computation, with the table accesses resolved. *)
Lemma sin_Q15_unfold (x : Z) :
  sin_Q15 x =
  let i := Z.to_nat (wrap16 x / 256) in
  to_int16 (y0 i + (wrap16 x mod 256 * signed16 (wrap16 (dy i))) / 256).
Proof.
  pose proof (wrap16_range x) as Hu.
  unfold sin_Q15, mul_us, lsr, sl, add.
  set (u := wrap16 x) in *.
  rewrite Z.shiftr_div_pow2, !Z.shiftl_mul_pow2 by lia.
  change (2 ^ 8) with 256. change (2 ^ 2) with 4.
  assert (Hi : 0 <= u / 256 < 256)
    by (split; [apply Z.div_pos | apply Z.div_lt_upper_bound]; lia).
  rewrite (wrap16_small (u / 256 * 4)) by lia.
  rewrite (wrap16_small (0 + u / 256 * 4)) by lia.
  replace (0 + u / 256 * 4) with (4 * (u / 256)) by lia.
  rewrite load_dy, load_y0 by lia.
  replace (wrap16 (u * 256)) with (256 * (u mod 256))
    by (unfold wrap16; change (2 ^ 16) with (256 * 256);
        rewrite <- Z.mul_mod_distr_l by lia; f_equal; lia).
  rewrite <- Z.mul_assoc, high_of_scaled.
  cbv zeta. unfold to_int16. f_equal.
  unfold wrap16. change (2 ^ 16) with 65536.
  rewrite Z.add_mod_idemp_l, Z.add_mod_idemp_r by lia.
  rewrite Z.mod_mod by lia. f_equal. lia.
Qed.

Lemma scaled_slope_bounds (d f : Z) :
  0 <= f <= 255 ->
  Z.min 0 ((d * 255) / 256) <= (d * f) / 256 <= Z.max 0 ((d * 255) / 256).
Proof.
  intros Hf. destruct (Z.lt_ge_cases d 0) as [Hd | Hd].
  - assert (d * 255 <= d * f <= 0) by nia.
    assert ((d * 255) / 256 <= (d * f) / 256) by (apply Z.div_le_mono; lia).
    assert ((d * f) / 256 <= 0 / 256) by (apply Z.div_le_mono; lia).
    change (0 / 256) with 0 in *. lia.
  - assert (0 <= d * f <= d * 255) by nia.
    assert ((d * f) / 256 <= (d * 255) / 256) by (apply Z.div_le_mono; lia).
    assert (0 / 256 <= (d * f) / 256) by (apply Z.div_le_mono; lia).
    change (0 / 256) with 0 in *. lia.
Qed.

(** The assembly computes the segment formula, without wrap-around, and
    the value stays clear of -32768. *)
Lemma sin_Q15_segment (x : Z) :
  sin_Q15 x = sin_segment x /\ -32767 <= sin_segment x <= 32767.
Proof.
  pose proof (wrap16_range x) as Hu.
  rewrite sin_Q15_unfold. unfold sin_segment. cbv zeta.
  set (u := wrap16 x) in *.
  assert (Hi : 0 <= u / 256 < 256)
    by (split; [apply Z.div_pos | apply Z.div_lt_upper_bound]; lia).
  assert (Hf : 0 <= u mod 256 < 256) by (apply Z.mod_pos_bound; lia).
  destruct (segment_facts (Z.to_nat (u / 256))) as (Hdy & Hy0 & Hlo & Hhi);
    [lia | ].
  rewrite signed16_wrap16 by assumption.
  rewrite (Z.mul_comm (u mod 256)).
  pose proof (scaled_slope_bounds (dy (Z.to_nat (u / 256))) (u mod 256)) as Hb.
  split; [apply to_int16_id; unfold in_int16 | ]; lia.
Qed.

Lemma rises_of_steps (f : nat -> Z) (a b : nat) :
  forallb (step_up f) (seq a (b - a)) = true -> rises f a b.
Proof.
  intros Hall i j Hai Hij. induction Hij as [ | j Hij IH]; intros Hjb.
  - lia.
  - apply Z.le_trans with (f j); [apply IH; lia | ].
    rewrite forallb_forall in Hall.
    apply Z.leb_le. apply (Hall j). apply in_seq. lia.
Qed.

Lemma falls_of_steps (f : nat -> Z) (a b : nat) :
  forallb (step_down f) (seq a (b - a)) = true -> falls f a b.
Proof.
  intros Hall i j Hai Hij. induction Hij as [ | j Hij IH]; intros Hjb.
  - lia.
  - apply Z.le_trans with (f j); [ | apply IH; lia].
    rewrite forallb_forall in Hall.
    apply Z.leb_le. apply (Hall j). apply in_seq. lia.
Qed.

End Sine.

(** C1: at the key phases the table-driven sine returns 0 for phase 0,
    0x7FFF within 1 LSB for phase 0x4000 and 0 within 1 LSB for phase
    -0x8000. *)
Theorem sin_Q15_key_phases :
  sin_Q15 0 = 0 /\
  Z.abs (sin_Q15 0x4000 - 0x7FFF) <= 1 /\
  Z.abs (sin_Q15 (-0x8000) - 0) <= 1.
Proof.
  replace (sin_Q15 0) with 0 by (vm_compute; reflexivity).
  replace (sin_Q15 0x4000) with 0x7FFF by (vm_compute; reflexivity).
  replace (sin_Q15 (-0x8000)) with 0 by (vm_compute; reflexivity).
  repeat split; simpl; lia.
Qed.

(** C10: for every 16-bit phase the result of [sin_Q15] lies in
    [-32767, 32767]; the pattern 0x8000 is never returned, so the result
    can be negated and its absolute value taken within Q0.15. *)
Theorem sin_Q15_range (x : Z) :
  in_int16 x ->
  -32767 <= sin_Q15 x <= 32767 /\ sin_Q15 x <> to_int16 0x8000 /\
  in_int16 (- sin_Q15 x) /\ in_int16 (Z.abs (sin_Q15 x)).
Proof.
  intros _. destruct (sin_Q15_segment x) as [E Hr]. rewrite E.
  change (to_int16 0x8000) with (-32768). unfold in_int16. lia.
Qed.

Lemma sin_Q15_range_witness :
  -32767 <= sin_Q15 (-0x4001) <= 32767 /\ sin_Q15 (-0x4001) <> to_int16 0x8000 /\
  in_int16 (- sin_Q15 (-0x4001)) /\ in_int16 (Z.abs (sin_Q15 (-0x4001))).
Proof. apply (sin_Q15_range (-0x4001)). unfold in_int16. lia. Defined.

(** C9, as stated: read in index order over the 256 pairs, the
    intercepts rise to a peak and fall from it on.  They do not: after
    the trough at index 192 the sequence rises again. *)
Lemma y0_not_rises_then_falls : ~ rises_then_falls y0 255.
Proof.
  intros [k [_ [Hup Hdown]]].
  destruct (Nat.le_gt_cases k 192) as [Hk | Hk].
  - assert (H : y0 255 <= y0 192) by (apply Hdown; lia).
    vm_compute in H. apply H. reflexivity.
  - assert (H : y0 64 <= y0 192) by (apply Hup; lia).
    vm_compute in H. apply H. reflexivity.
Qed.

(** C9, amended: the intercepts are non-decreasing over indices 0..64,
    non-increasing over 64..192 and non-decreasing again over 192..255,
    the shape of one sine period that starts at phase 0. *)
Theorem y0_one_period :
  rises y0 0 64 /\ falls y0 64 192 /\ rises y0 192 255.
Proof.
  split; [ | split].
  - apply rises_of_steps. vm_compute. reflexivity.
  - apply falls_of_steps. vm_compute. reflexivity.
  - apply rises_of_steps. vm_compute. reflexivity.
Qed.

(** ** Division *)

(** Dividing a denominator of at least 2 LSB by itself gives 1.0. *)
Lemma div_Q16_Q16_self (den : Z) :
  2 <= den < 65536 -> div_Q16_Q16 den den = Some 0x00010000.
Proof.
  intros H. unfold div_Q16_Q16, div_u, divf, lsr, sl.
  destruct (Z.eqb_spec den 0) as [E | _]; [lia | ].
  rewrite Z.div_same, Z.mod_same by lia.
  rewrite Z.shiftr_0_l, Z.shiftr_div_pow2 by lia. change (2 ^ 1) with 2.
  assert (Hd : 1 <= den / 2 < 32768).
  { split; [apply Z.div_le_lower_bound | apply Z.div_lt_upper_bound]; lia. }
  rewrite (signed16_low (den / 2)) by lia.
  change (signed16 0) with 0.
  destruct (Z.eqb_spec (den / 2) 0) as [E | _]; [lia | ].
  destruct (Z.leb_spec (Z.abs (den / 2)) (Z.abs 0)) as [E | _]; [lia | ].
  rewrite Z.mul_0_l, Z.quot_0_l by lia. reflexivity.
Qed.

(** C2: with the non-zero denominator 0x8000, [div_Q16_Q16 0x8000 0x8000]
    (0.5 / 0.5) is exactly 0x00010000, 1.0 in Q16.16. *)
Theorem div_Q16_Q16_half_by_half :
  0x8000 <> 0 /\ div_Q16_Q16 0x8000 0x8000 = Some 0x00010000.
Proof.
  split; [discriminate | ]. vm_compute. reflexivity.
Qed.

(** ** Linear interpolation *)

Section Interp.

Variable cfg : corcon.

Lemma wrap40_small (z : Z) : - 2 ^ 39 <= z < 2 ^ 39 -> wrap40 z = z.
Proof. intros H. unfold wrap40. rewrite Z.mod_small; lia. Qed.

Lemma to_int16_wrap16 (z : Z) : to_int16 (wrap16 z) = to_int16 z.
Proof.
  unfold to_int16. f_equal. unfold wrap16. apply Z.mod_mod.
  change (2 ^ 16) with 65536. lia.
Qed.

(** The accumulator before the store: [y1 - y1 * x + y2 * x] in Q31,
    with [x] the 15-bit fraction handed to the multiplier. *)
Lemma interp_accumulator (y1 y2 x : Z) :
  in_int16 y1 -> in_int16 y2 -> 0 <= x <= 32767 ->
  mac (wrap16 y2) x (msc (wrap16 y1) x (lac (wrap16 y1)))
  = y1 * 65536 - 2 * (y1 * x) + 2 * (y2 * x).
Proof.
  intros H1 H2 Hx. unfold mac, msc, lac, mpy.
  rewrite !signed16_wrap16 by assumption.
  rewrite (signed16_low x) by lia.
  rewrite !Z.shiftl_mul_pow2 by lia.
  change (2 ^ 16) with 65536. change (2 ^ 1) with 2.
  unfold in_int16 in H1, H2.
  assert (B1 : -32768 * 32767 <= y1 * x <= 32767 * 32767) by nia.
  assert (B2 : -32768 * 32767 <= y2 * x <= 32767 * 32767) by nia.
  change (2 ^ 39) with 549755813888 in *.
  rewrite (wrap40_small (y1 * 65536)) by (change (2 ^ 39) with 549755813888; lia).
  rewrite (wrap40_small (y1 * 65536 - y1 * x * 2))
    by (change (2 ^ 39) with 549755813888; lia).
  rewrite wrap40_small by (change (2 ^ 39) with 549755813888; lia).
  lia.
Qed.

(** The rounded high word is within half a unit of the accumulator. *)
Lemma round_nearest (acc : Z) :
  65536 * round cfg acc - 32768 <= acc <= 65536 * round cfg acc + 32768.
Proof.
  unfold round. change 0xFFFF with (Z.ones 16).
  rewrite Z.land_ones, Z.shiftr_div_pow2 by lia. change (2 ^ 16) with 65536.
  pose proof (Z.div_mod acc 65536 ltac:(lia)) as E.
  pose proof (Z.mod_pos_bound acc 65536 ltac:(lia)) as B.
  destruct (RND cfg).
  - destruct (Z.leb_spec 0x8000 (acc mod 65536)); lia.
  - destruct (Z.eqb_spec (acc mod 65536) 0x8000).
    + destruct (Z.testbit acc 16); lia.
    + destruct (Z.ltb_spec 0x8000 (acc mod 65536)); lia.
Qed.

Lemma sac_r_in_range (acc : Z) :
  -32768 <= round cfg acc <= 32767 ->
  to_int16 (sac_r cfg acc) = round cfg acc.
Proof.
  intros H. unfold sac_r.
  destruct (SATDW cfg).
  - destruct (Z.ltb_spec 32767 (round cfg acc)); [lia | ].
    destruct (Z.ltb_spec (round cfg acc) (-32768)); [lia | ].
    rewrite to_int16_wrap16. apply to_int16_id. exact H.
  - rewrite to_int16_wrap16. apply to_int16_id. exact H.
Qed.

(** The result is the interpolated value rounded to the nearest Q0.15
    number: twice the distance to the exact value is at most 1 LSB. *)
Lemma interpLinear_nearest (y1 y2 x : Z) :
  in_int16 y1 -> in_int16 y2 -> 0 <= x <= 65535 ->
  let y := interpLinear cfg y1 y2 x in
  let xh := x / 2 in
  65536 * y - 32768 <= y1 * 65536 - 2 * (y1 * xh) + 2 * (y2 * xh) <= 65536 * y + 32768.
Proof.
  intros H1 H2 Hx. cbv zeta. unfold interpLinear.
  rewrite Z.shiftr_div_pow2 by lia. change (2 ^ 1) with 2.
  assert (Hh : 0 <= x / 2 <= 32767).
  { split; [apply Z.div_pos | apply Z.lt_succ_r, Z.div_lt_upper_bound]; lia. }
  rewrite (wrap16_small (x / 2)) by lia.
  rewrite interp_accumulator by assumption.
  set (A := y1 * 65536 - 2 * (y1 * (x / 2)) + 2 * (y2 * (x / 2))).
  pose proof (round_nearest A) as Hr.
  rewrite sac_r_in_range; [exact Hr | ].
  unfold in_int16 in H1, H2.
  assert (-32768 * 65536 <= A <= 32767 * 65536) by (subst A; nia).
  lia.
Qed.

End Interp.

(** C8, as stated: at x = 0xFFFF the result is within 1 LSB of y2 for
    all Q0.15 end points.  With y1 = 32767 and y2 = -32768 the result is
    -32766, 2 LSB away from y2, whatever the rounding and write
    saturation settings. *)
Lemma interpLinear_top_not_within_1 :
  in_int16 32767 /\ in_int16 (-32768) /\
  Forall (fun cfg => interpLinear cfg 32767 (-32768) 0xFFFF = -32766 /\
                     ~ Z.abs (interpLinear cfg 32767 (-32768) 0xFFFF - -32768) <= 1)
         [Corcon false false; Corcon false true; Corcon true false; Corcon true true].
Proof.
  split; [unfold in_int16; lia | ]. split; [unfold in_int16; lia | ].
  repeat constructor; try (vm_compute; reflexivity).
  all: intros Hle; vm_compute in Hle; apply Hle; reflexivity.
Qed.

(** C8, amended: for all Q0.15 values y1 and y2, [interpLinear] returns
    exactly y1 at x = 0; at x = 0xFFFF it returns y2 within 2 LSB, and
    within 1 LSB whenever y1 and y2 are less than 49152 apart. *)
Theorem interpLinear_boundaries (cfg : corcon) (y1 y2 : Z) :
  in_int16 y1 -> in_int16 y2 ->
  interpLinear cfg y1 y2 0 = y1 /\
  Z.abs (interpLinear cfg y1 y2 0xFFFF - y2) <= 2 /\
  (Z.abs (y1 - y2) < 49152 -> Z.abs (interpLinear cfg y1 y2 0xFFFF - y2) <= 1).
Proof.
  intros H1 H2.
  pose proof (interpLinear_nearest cfg y1 y2 0 H1 H2 ltac:(lia)) as H0.
  pose proof (interpLinear_nearest cfg y1 y2 0xFFFF H1 H2 ltac:(lia)) as HF.
  cbv zeta in H0, HF.
  change (0 / 2) with 0 in H0. change (0xFFFF / 2) with 32767 in HF.
  unfold in_int16 in H1, H2.
  split; [lia | ]. split; [lia | ]. intros Hd. lia.
Qed.

Lemma interpLinear_boundaries_witness :
  interpLinear corcon_reset (-100) 200 0 = -100 /\
  Z.abs (interpLinear corcon_reset (-100) 200 0xFFFF - 200) <= 2 /\
  (Z.abs (-100 - 200) < 49152 ->
   Z.abs (interpLinear corcon_reset (-100) 200 0xFFFF - 200) <= 1).
Proof.
  apply (interpLinear_boundaries corcon_reset (-100) 200); unfold in_int16; lia.
Defined.


(** * Further properties *)

(** ** The unions of fp_lib_types.h *)

Section Unions.

Lemma wrap32_small (z : Z) : 0 <= z < 2 ^ 32 -> wrap32 z = z.
Proof. intros H. unfold wrap32. apply Z.mod_small. exact H. Qed.

Lemma testbit31 (w : Z) :
  0 <= w < 2 ^ 32 -> Z.testbit w 31 = (2 ^ 31 <=? w).
Proof.
  intros H.
  assert (E : Z.b2z (Z.testbit w 31) = (w / 2 ^ 31) mod 2)
    by (apply Z.testbit_spec'; lia).
  change (2 ^ 32) with 4294967296 in H. change (2 ^ 31) with 2147483648 in *.
  destruct (Z.leb_spec 2147483648 w) as [Hge | Hlt].
  - assert (w / 2147483648 = 1)
      by (symmetry; apply (Z.div_unique w _ 1 (w - 2147483648)); lia).
    destruct (Z.testbit w 31); [reflexivity | ].
    rewrite H0 in E. discriminate E.
  - rewrite Z.div_small in E by lia.
    destruct (Z.testbit w 31); [discriminate E | reflexivity].
Qed.

Lemma to_int32_id (z : Z) : in_int32 z -> to_int32 z = z.
Proof.
  unfold in_int32, to_int32, signed32. intros H.
  change (2 ^ 31) with 2147483648 in H.
  rewrite testbit31 by (apply Z.mod_pos_bound; lia).
  unfold wrap32. change (2 ^ 32) with 4294967296. change (2 ^ 31) with 2147483648.
  destruct (Z.lt_ge_cases z 0).
  - replace (z mod 4294967296) with (z + 4294967296)
      by (apply (Z.mod_unique _ _ (-1)); lia).
    destruct (Z.leb_spec 2147483648 (z + 4294967296)); lia.
  - rewrite Z.mod_small by lia.
    destruct (Z.leb_spec 2147483648 z); lia.
Qed.

(** The high half of a signed 32-bit value is its quotient by 2^16
    rounded downwards, the low half the matching remainder. *)
Lemma Long_high_floor (v : Z) : in_int32 v -> Long.high v = v / 65536.
Proof.
  unfold in_int32, Long.high. intros H. change (2 ^ 31) with 2147483648 in H.
  rewrite ULong_high_div. unfold wrap32.
  change (2 ^ 32) with 4294967296. change (2 ^ 16) with 65536.
  destruct (Z.lt_ge_cases v 0).
  - replace (v mod 4294967296) with (v + 65536 * 65536)
      by (apply (Z.mod_unique _ _ (-1)); lia).
    rewrite Z.div_add by lia.
    assert (-32768 <= v / 65536 < 0)
      by (split; [apply Z.div_le_lower_bound | apply Z.div_lt_upper_bound]; lia).
    rewrite signed16_high; lia.
  - rewrite Z.mod_small by lia.
    assert (0 <= v / 65536 < 32768)
      by (split; [apply Z.div_pos | apply Z.div_lt_upper_bound]; lia).
    apply signed16_low. lia.
Qed.

Lemma Long_low_mod (v : Z) : Long.low v = v mod 65536.
Proof.
  unfold Long.low. rewrite ULong_low_mod. unfold wrap32.
  change (2 ^ 32) with (65536 * 65536). change (2 ^ 16) with 65536.
  rewrite Z.rem_mul_r by lia.
  rewrite Z.mul_comm, Z.mod_add by lia. apply Z.mod_mod. lia.
Qed.

Lemma ULong_halves_range (v : Z) :
  in_uint32 v -> 0 <= ULong.low v < 65536 /\ 0 <= ULong.high v < 65536.
Proof.
  unfold in_uint32. intros H. rewrite ULong_low_mod, ULong_high_div. pow_consts.
  split; [apply Z.mod_pos_bound; lia | ].
  split; [apply Z.div_pos | apply Z.div_lt_upper_bound]; lia.
Qed.

End Unions.

(** X1: the two 16-bit halves of the [ULong] union determine the
    32-bit value: both lie in [0, 65535], the value is
    [high * 2^16 + low], and joining the halves gives the value back. *)
Theorem ULong_split_join (v : Z) :
  in_uint32 v ->
  0 <= ULong.low v < 65536 /\ 0 <= ULong.high v < 65536 /\
  v = ULong.high v * 2 ^ 16 + ULong.low v /\
  ULong.join (ULong.high v) (ULong.low v) = v.
Proof.
  intros H. destruct (ULong_halves_range v H) as [Hl Hh].
  split; [exact Hl | ]. split; [exact Hh | ].
  assert (E : v = ULong.high v * 2 ^ 16 + ULong.low v).
  { rewrite ULong_low_mod, ULong_high_div. pow_consts.
    rewrite (Z.div_mod v 65536) at 1 by lia. lia. }
  split; [exact E | ].
  rewrite ULong_join_add by exact Hl. symmetry. exact E.
Qed.

Lemma ULong_split_join_witness :
  0 <= ULong.low 0x12345678 < 65536 /\ 0 <= ULong.high 0x12345678 < 65536 /\
  0x12345678 = ULong.high 0x12345678 * 2 ^ 16 + ULong.low 0x12345678 /\
  ULong.join (ULong.high 0x12345678) (ULong.low 0x12345678) = 0x12345678.
Proof. apply (ULong_split_join 0x12345678). unfold in_uint32. lia. Defined.

(** ** Conversions, continued *)

Section TypeconvMore.

Lemma convert_Q1516_Q16_cases (arg : Z) :
  in_int32 arg ->
  convert_Q1516_Q16 arg =
  if arg <? 0 then 0 else if arg <? 65536 then arg else 65535.
Proof.
  intros H. unfold convert_Q1516_Q16.
  rewrite Long_high_floor, Long_low_mod by exact H.
  unfold in_int32 in H. change (2 ^ 31) with 2147483648 in H.
  assert (Hq : -32768 <= arg / 65536 <= 32767).
  { split; [apply Z.div_le_lower_bound | apply Z.lt_succ_r, Z.div_lt_upper_bound]; lia. }
  rewrite shiftr15_sign by exact Hq.
  destruct (Z.eqb_spec (arg / 65536) 0) as [E | N].
  - assert (0 <= arg < 65536) by (Z.div_mod_to_equations; lia).
    destruct (Z.ltb_spec arg 0); [lia | ].
    destruct (Z.ltb_spec arg 65536); [ | lia].
    apply Z.mod_small. lia.
  - destruct (Z.ltb_spec (arg / 65536) 0).
    + destruct (Z.ltb_spec arg 0); [reflexivity | ].
      assert (0 <= arg / 65536) by (apply Z.div_pos; lia). lia.
    + destruct (Z.ltb_spec arg 0).
      * assert (arg / 65536 < 0) by (apply Z.div_lt_upper_bound; lia). lia.
      * destruct (Z.ltb_spec arg 65536); [ | reflexivity].
        rewrite Z.div_small in N by lia. lia.
Qed.

Lemma convert_Q16_Q1516_id (arg : Z) :
  0 <= arg <= 65535 -> convert_Q16_Q1516 arg = arg.
Proof.
  intros H. unfold convert_Q16_Q1516.
  rewrite muluu_exact by lia. rewrite Z.mul_1_r.
  apply to_int32_id. unfold in_int32. change (2 ^ 31) with 2147483648. lia.
Qed.

Lemma convert_Q15_Q16_cases (x : Z) :
  in_int16 x ->
  convert_Q15_Q16 x =
  if x <? 0 then 0 else 2 * x + (if x <? 0x4000 then 0 else 1).
Proof.
  unfold in_int16. intros H. destruct (Z.ltb_spec x 0).
  - apply convert_Q15_Q16_neg. lia.
  - rewrite convert_Q15_Q16_nonneg by lia.
    apply convert_Q15_Q16_Naive_nonneg. lia.
Qed.

Lemma convert_Q16_Q15_half (y : Z) :
  0 <= y <= 65535 -> convert_Q16_Q15 y = y / 2.
Proof.
  intros H. unfold convert_Q16_Q15.
  rewrite Z.shiftr_div_pow2 by lia. change (2 ^ 1) with 2.
  apply to_int16_id. unfold in_int16.
  assert (0 <= y / 2 < 32768)
    by (split; [apply Z.div_pos | apply Z.div_lt_upper_bound]; lia).
  lia.
Qed.

End TypeconvMore.

(** X2: [convert_Q1516_Q16] clamps a signed Q15.16 value to the range of
    Q0.16: negative values give 0, values of 1.0 and above give 0xFFFF,
    and values in between are returned unchanged. *)
Theorem convert_Q1516_Q16_clamps (arg : Z) :
  in_int32 arg ->
  convert_Q1516_Q16 arg = Z.max 0 (Z.min arg 0xFFFF).
Proof.
  intros H. rewrite convert_Q1516_Q16_cases by exact H.
  destruct (Z.ltb_spec arg 0); [lia | ].
  destruct (Z.ltb_spec arg 65536); lia.
Qed.

Lemma convert_Q1516_Q16_clamps_witness :
  convert_Q1516_Q16 (-0x10000) = Z.max 0 (Z.min (-0x10000) 0xFFFF).
Proof.
  apply (convert_Q1516_Q16_clamps (-0x10000)). unfold in_int32. lia.
Defined.

(** X3: widening a Q0.16 value to Q15.16 keeps its numeric value, and
    narrowing it again with [convert_Q1516_Q16] returns the original. *)
Theorem convert_Q16_Q1516_roundtrip (arg : Z) :
  0 <= arg <= 0xFFFF ->
  convert_Q16_Q1516 arg = arg /\
  convert_Q1516_Q16 (convert_Q16_Q1516 arg) = arg.
Proof.
  intros H. rewrite convert_Q16_Q1516_id by lia. split; [reflexivity | ].
  rewrite convert_Q1516_Q16_cases
    by (unfold in_int32; change (2 ^ 31) with 2147483648; lia).
  destruct (Z.ltb_spec arg 0); [lia | ].
  destruct (Z.ltb_spec arg 65536); lia.
Qed.

Lemma convert_Q16_Q1516_roundtrip_witness :
  convert_Q16_Q1516 0xFFFF = 0xFFFF /\
  convert_Q1516_Q16 (convert_Q16_Q1516 0xFFFF) = 0xFFFF.
Proof. apply (convert_Q16_Q1516_roundtrip 0xFFFF). lia. Defined.

(** X4: the saturating conversion Q0.15 to Q0.16 is monotone: a larger
    argument never gives a smaller result, and the results stay within
    [0, 0xFFFF]. *)
Theorem convert_Q15_Q16_monotone (x1 x2 : Z) :
  in_int16 x1 -> in_int16 x2 -> x1 <= x2 ->
  0 <= convert_Q15_Q16 x1 <= convert_Q15_Q16 x2 /\
  convert_Q15_Q16 x2 <= 0xFFFF.
Proof.
  intros H1 H2 Hle. rewrite !convert_Q15_Q16_cases by assumption.
  unfold in_int16 in H1, H2.
  destruct (Z.ltb_spec x1 0); destruct (Z.ltb_spec x2 0);
    destruct (Z.ltb_spec x1 0x4000); destruct (Z.ltb_spec x2 0x4000); lia.
Qed.

Lemma convert_Q15_Q16_monotone_witness :
  0 <= convert_Q15_Q16 (-3) <= convert_Q15_Q16 0x4000 /\
  convert_Q15_Q16 0x4000 <= 0xFFFF.
Proof.
  apply (convert_Q15_Q16_monotone (-3) 0x4000); unfold in_int16; lia.
Defined.

(** X5: going from Q0.16 to Q0.15 and back loses at most the least
    significant bit: the intermediate value is never negative and the
    result differs from the argument by at most 1 LSB. *)
Theorem convert_Q16_roundtrip_within_1 (y : Z) :
  0 <= y <= 0xFFFF ->
  0 <= convert_Q16_Q15 y <= 0x7FFF /\
  Z.abs (convert_Q15_Q16 (convert_Q16_Q15 y) - y) <= 1.
Proof.
  intros H. rewrite convert_Q16_Q15_half by lia.
  assert (Hh : 0 <= y / 2 <= 32767).
  { split; [apply Z.div_pos | apply Z.lt_succ_r, Z.div_lt_upper_bound]; lia. }
  split; [lia | ].
  rewrite convert_Q15_Q16_cases by (unfold in_int16; lia).
  destruct (Z.ltb_spec (y / 2) 0); [lia | ].
  destruct (Z.ltb_spec (y / 2) 0x4000); Z.div_mod_to_equations; lia.
Qed.

Lemma convert_Q16_roundtrip_within_1_witness :
  0 <= convert_Q16_Q15 0x8000 <= 0x7FFF /\
  Z.abs (convert_Q15_Q16 (convert_Q16_Q15 0x8000) - 0x8000) <= 1.
Proof. apply (convert_Q16_roundtrip_within_1 0x8000). lia. Defined.

(** ** Absolute value, continued *)

Lemma abs_Q15_saturated (x : Z) :
  in_int16 x -> abs_Q15 x = Z.min (Z.abs x) 32767.
Proof.
  unfold in_int16. intros H.
  destruct (Z.eq_dec x (-32768)) as [-> | Hne]; [reflexivity | ].
  destruct (Z.lt_ge_cases x 0).
  - rewrite abs_Q15_negative by lia. lia.
  - rewrite abs_Q15_nonneg by lia. lia.
Qed.

(** X6: for every 16-bit input [abs_Q15] returns the magnitude
    saturated at 32767; the result is never negative, so it is always
    a valid Q0.15 magnitude. *)
Theorem abs_Q15_range (x : Z) :
  in_int16 x ->
  abs_Q15 x = Z.min (Z.abs x) 32767 /\ 0 <= abs_Q15 x <= 32767.
Proof.
  intros H. rewrite abs_Q15_saturated by exact H. lia.
Qed.

Lemma abs_Q15_range_witness :
  abs_Q15 (-32768) = Z.min (Z.abs (-32768)) 32767 /\ 0 <= abs_Q15 (-32768) <= 32767.
Proof. apply (abs_Q15_range (-32768)). unfold in_int16. lia. Defined.

(** X7: [abs_Q15] is idempotent and even: applying it twice changes
    nothing, and an argument and its 16-bit negation have the same
    result (the negation of -32768 wraps to -32768). *)
Theorem abs_Q15_idempotent_even (x : Z) :
  in_int16 x ->
  abs_Q15 (abs_Q15 x) = abs_Q15 x /\ abs_Q15 (to_int16 (- x)) = abs_Q15 x.
Proof.
  intros H. pose proof (abs_Q15_saturated x H) as E.
  unfold in_int16 in H. split.
  - rewrite (abs_Q15_saturated (abs_Q15 x)) by (unfold in_int16; lia). lia.
  - destruct (Z.eq_dec x (-32768)) as [-> | Hne]; [reflexivity | ].
    rewrite to_int16_id by (unfold in_int16; lia).
    rewrite abs_Q15_saturated by (unfold in_int16; lia). lia.
Qed.

Lemma abs_Q15_idempotent_even_witness :
  abs_Q15 (abs_Q15 (-7)) = abs_Q15 (-7) /\ abs_Q15 (to_int16 (- -7)) = abs_Q15 (-7).
Proof. apply (abs_Q15_idempotent_even (-7)). unfold in_int16. lia. Defined.

(** ** Multiplication, continued *)

Section MulMore.

Lemma mulss_exact (a b : Z) :
  in_int16 a -> in_int16 b -> mulss (wrap16 a) (wrap16 b) = a * b.
Proof.
  intros Ha Hb. unfold mulss. rewrite !signed16_wrap16 by assumption.
  unfold in_int16 in Ha, Hb. apply to_int32_id.
  unfold in_int32. change (2 ^ 31) with 2147483648. nia.
Qed.

Lemma mulsu_exact (a b : Z) :
  in_int16 a -> 0 <= b < 65536 -> mulsu (wrap16 a) b = a * b.
Proof.
  intros Ha Hb. unfold mulsu. rewrite signed16_wrap16 by assumption.
  unfold in_int16 in Ha. apply to_int32_id.
  unfold in_int32. change (2 ^ 31) with 2147483648. nia.
Qed.

Lemma mulsu_range (a b : Z) :
  in_int16 a -> 0 <= b < 65536 -> in_int32 (a * b).
Proof.
  unfold in_int16, in_int32. intros Ha Hb.
  change (2 ^ 31) with 2147483648. nia.
Qed.

(** Signed Q0.15 by unsigned Q0.16: the product with its 16 low bits
    dropped, rounding downwards. *)
Lemma mul_Q15_Q16_floor (a b : Z) :
  in_int16 a -> 0 <= b < 65536 -> mul_Q15_Q16 a b = (a * b) / 65536.
Proof.
  intros Ha Hb. unfold mul_Q15_Q16.
  rewrite mulsu_exact by assumption.
  apply Long_high_floor. apply mulsu_range; assumption.
Qed.

Lemma mul_Q15_Q16_bounds (a b : Z) :
  in_int16 a -> 0 <= b < 65536 ->
  Z.min a 0 <= (a * b) / 65536 <= Z.max a 0.
Proof.
  unfold in_int16. intros Ha Hb.
  destruct (Z.lt_ge_cases a 0).
  - assert (65535 * a <= a * b <= 0) by nia.
    remember (a * b) as p. Z.div_mod_to_equations. lia.
  - assert (0 <= a * b <= 65535 * a) by nia.
    remember (a * b) as p. Z.div_mod_to_equations. lia.
Qed.

Lemma to_int16_add_mod (x y : Z) :
  to_int16 (x mod 65536 + y) = to_int16 (x + y).
Proof.
  unfold to_int16, wrap16. change (2 ^ 16) with 65536.
  rewrite Z.add_mod_idemp_l by lia. reflexivity.
Qed.

Lemma mul_Q15_Q1616_floor (a b : Z) :
  in_int16 a -> in_uint32 b ->
  mul_Q15_Q1616 a b = to_int16 ((a * b) / 65536).
Proof.
  intros Ha Hb. destruct (ULong_halves_range b Hb) as [Hl Hh].
  unfold mul_Q15_Q1616.
  rewrite mulsu_exact by assumption.
  rewrite Long_low_mod, mul_Q15_Q16_floor by assumption.
  rewrite to_int16_add_mod. f_equal.
  assert (E : a * b = a * ULong.high b * 65536 + a * ULong.low b).
  { rewrite ULong_low_mod, ULong_high_div. pow_consts.
    rewrite (Z.div_mod b 65536) at 1 by lia. ring. }
  rewrite E. rewrite Z.div_add_l by lia. reflexivity.
Qed.

Lemma mul_Q16_Q16_floor (a b : Z) :
  0 <= a < 65536 -> 0 <= b < 65536 -> mul_Q16_Q16 a b = (a * b) / 65536.
Proof.
  intros Ha Hb. unfold mul_Q16_Q16.
  rewrite muluu_exact, ULong_high_div by assumption. reflexivity.
Qed.

Lemma mul_Q32_UINT_as_Q1616 (a b : Z) : mul_Q32_UINT a b = mul_Q1616_UINT a b.
Proof.
  unfold mul_Q32_UINT, mul_Q1616_UINT, muluu, mulw_uu.
  rewrite (Z.mul_comm b (ULong.low a)), (Z.mul_comm b (ULong.high a)).
  reflexivity.
Qed.

(** The Q16.16 product in closed form. *)
Lemma mul_Q1616_Q1616_floor (a b : Z) :
  in_uint32 a -> in_uint32 b ->
  mul_Q1616_Q1616 a b = ((a * b) / 65536) mod 2 ^ 32.
Proof.
  intros Ha Hb. destruct (ULong_halves_range b Hb) as [Hl Hh].
  unfold mul_Q1616_Q1616.
  rewrite mul_Q1616_UINT_spec, mul_Q1616_Q16_spec by assumption.
  unfold wrap32. rewrite Z.add_mod_idemp_l by lia. f_equal.
  assert (E : a * b = a * ULong.high b * 2 ^ 16 + a * ULong.low b).
  { rewrite ULong_low_mod, ULong_high_div.
    rewrite (Z.div_mod b (2 ^ 16)) at 1 by lia. ring. }
  rewrite E. rewrite Z.div_add_l by lia. reflexivity.
Qed.

End MulMore.

(** X8: for Q0.15 factors that are not both -32768, [mul_Q15_Q15]
    returns the product scaled back by 2^15 and rounded downwards, a
    value that fits Q0.15; for -32768 times -32768 the shifted product
    overflows and the result is -32768.  The function is commutative. *)
Theorem mul_Q15_Q15_floor (a b : Z) :
  in_int16 a -> in_int16 b ->
  (a <> -32768 \/ b <> -32768 ->
   mul_Q15_Q15 a b = (a * b) / 2 ^ 15 /\ in_int16 (mul_Q15_Q15 a b)) /\
  mul_Q15_Q15 (-32768) (-32768) = -32768 /\
  mul_Q15_Q15 a b = mul_Q15_Q15 b a.
Proof.
  intros Ha Hb. split; [ | split].
  - intros Hne. unfold mul_Q15_Q15.
    rewrite mulss_exact by assumption.
    rewrite Z.shiftl_mul_pow2 by lia. change (2 ^ 1) with 2.
    unfold in_int16 in *.
    assert (B : -32768 * 32767 <= a * b <= 32768 * 32767) by nia.
    rewrite to_int32_id
      by (unfold in_int32; change (2 ^ 31) with 2147483648; lia).
    rewrite Long_high_floor
      by (unfold in_int32; change (2 ^ 31) with 2147483648; lia).
    change (2 ^ 15) with 32768.
    assert (E : a * b * 2 / 65536 = a * b / 32768).
    { remember (a * b) as p. Z.div_mod_to_equations. lia. }
    rewrite E. split; [reflexivity | ].
    remember (a * b) as p. Z.div_mod_to_equations. lia.
  - reflexivity.
  - unfold mul_Q15_Q15, mulss. rewrite (Z.mul_comm (signed16 (wrap16 a))).
    reflexivity.
Qed.

Lemma mul_Q15_Q15_floor_witness :
  mul_Q15_Q15 0x4000 (-3) = (0x4000 * -3) / 2 ^ 15 /\
  in_int16 (mul_Q15_Q15 0x4000 (-3)).
Proof.
  apply (mul_Q15_Q15_floor 0x4000 (-3)).
  - unfold in_int16. lia.
  - unfold in_int16. lia.
  - left. lia.
Defined.

(** X9: [mul_Q15_Q16] returns the product of a Q0.15 and a Q0.16 value
    scaled back by 2^16 and rounded downwards; the result lies between
    0 and the signed factor, so the magnitude never grows and the sign
    never flips. *)
Theorem mul_Q15_Q16_spec (a b : Z) :
  in_int16 a -> 0 <= b <= 0xFFFF ->
  mul_Q15_Q16 a b = (a * b) / 2 ^ 16 /\
  Z.min a 0 <= mul_Q15_Q16 a b <= Z.max a 0.
Proof.
  intros Ha Hb. rewrite mul_Q15_Q16_floor by (assumption || lia).
  split; [reflexivity | ]. apply mul_Q15_Q16_bounds; [assumption | lia].
Qed.

Lemma mul_Q15_Q16_spec_witness :
  mul_Q15_Q16 (-1) 0xFFFF = (-1 * 0xFFFF) / 2 ^ 16 /\
  Z.min (-1) 0 <= mul_Q15_Q16 (-1) 0xFFFF <= Z.max (-1) 0.
Proof. apply (mul_Q15_Q16_spec (-1) 0xFFFF); [unfold in_int16 | ]; lia. Defined.

(** X10: [mul_Q15_Q1616] returns the product scaled back by 2^16,
    rounded downwards and reduced to 16 bits without clipping: it is
    exact whenever the scaled product fits Q0.15, multiplying by 1.0
    (0x10000) returns the argument, and for a factor below 1.0 it
    agrees with [mul_Q15_Q16]. *)
Theorem mul_Q15_Q1616_spec (a b : Z) :
  in_int16 a -> in_uint32 b ->
  mul_Q15_Q1616 a b = to_int16 ((a * b) / 2 ^ 16) /\
  (in_int16 ((a * b) / 2 ^ 16) -> mul_Q15_Q1616 a b = (a * b) / 2 ^ 16) /\
  mul_Q15_Q1616 a 0x10000 = a /\
  (b < 0x10000 -> mul_Q15_Q1616 a b = mul_Q15_Q16 a b).
Proof.
  intros Ha Hb. rewrite mul_Q15_Q1616_floor by assumption. pow_consts.
  split; [reflexivity | ]. split; [apply to_int16_id | ]. split.
  - rewrite mul_Q15_Q1616_floor by (assumption || (unfold in_uint32; lia)).
    rewrite Z.div_mul by lia. apply to_int16_id. exact Ha.
  - intros Hlt. unfold in_uint32 in Hb.
    rewrite mul_Q15_Q16_floor by (assumption || lia).
    apply to_int16_id.
    pose proof (mul_Q15_Q16_bounds a b Ha ltac:(lia)) as B.
    unfold in_int16 in *. lia.
Qed.

Lemma mul_Q15_Q1616_spec_witness :
  mul_Q15_Q1616 (-100) 0x28000 = to_int16 ((-100 * 0x28000) / 2 ^ 16) /\
  (in_int16 ((-100 * 0x28000) / 2 ^ 16) ->
   mul_Q15_Q1616 (-100) 0x28000 = (-100 * 0x28000) / 2 ^ 16) /\
  mul_Q15_Q1616 (-100) 0x10000 = -100 /\
  (0x28000 < 0x10000 -> mul_Q15_Q1616 (-100) 0x28000 = mul_Q15_Q16 (-100) 0x28000).
Proof.
  apply (mul_Q15_Q1616_spec (-100) 0x28000); [unfold in_int16 | unfold in_uint32]; lia.
Defined.

(** X11: [mul_Q16_Q16] returns the product of two Q0.16 values scaled
    back by 2^16 and rounded downwards; it is commutative and the
    result never exceeds either factor. *)
Theorem mul_Q16_Q16_spec (a b : Z) :
  0 <= a <= 0xFFFF -> 0 <= b <= 0xFFFF ->
  mul_Q16_Q16 a b = (a * b) / 2 ^ 16 /\
  mul_Q16_Q16 a b = mul_Q16_Q16 b a /\
  0 <= mul_Q16_Q16 a b <= Z.min a b.
Proof.
  intros Ha Hb. rewrite !mul_Q16_Q16_floor by lia. pow_consts.
  split; [reflexivity | ]. split; [rewrite (Z.mul_comm a b); reflexivity | ].
  assert (0 <= a * b <= 65535 * a) by nia.
  assert (a * b <= 65535 * b) by nia.
  remember (a * b) as p. Z.div_mod_to_equations. lia.
Qed.

Lemma mul_Q16_Q16_spec_witness :
  mul_Q16_Q16 0x8000 0xFFFF = (0x8000 * 0xFFFF) / 2 ^ 16 /\
  mul_Q16_Q16 0x8000 0xFFFF = mul_Q16_Q16 0xFFFF 0x8000 /\
  0 <= mul_Q16_Q16 0x8000 0xFFFF <= Z.min 0x8000 0xFFFF.
Proof. apply (mul_Q16_Q16_spec 0x8000 0xFFFF); lia. Defined.

(** X12: [mul_Q32_Q16] and [mul_Q1616_Q16] return the 48-bit product of
    a 32-bit value and a Q0.16 factor with its 16 low bits dropped; the
    sum of the partial products never overflows 32 bits and the result
    never exceeds the 32-bit argument. *)
Theorem mul_Q32_Q16_spec (a b : Z) :
  in_uint32 a -> 0 <= b <= 0xFFFF ->
  mul_Q32_Q16 a b = (a * b) / 2 ^ 16 /\
  mul_Q1616_Q16 a b = (a * b) / 2 ^ 16 /\
  0 <= (a * b) / 2 ^ 16 <= a.
Proof.
  intros Ha Hb.
  change (mul_Q32_Q16 a b) with (mul_Q1616_Q16 a b).
  rewrite mul_Q1616_Q16_spec by (assumption || lia).
  split; [reflexivity | ]. split; [reflexivity | ].
  unfold in_uint32 in Ha. pow_consts.
  assert (0 <= a * b <= 65535 * a) by nia.
  remember (a * b) as p. Z.div_mod_to_equations. lia.
Qed.

Lemma mul_Q32_Q16_spec_witness :
  mul_Q32_Q16 0xFFFFFFFF 0xFFFF = (0xFFFFFFFF * 0xFFFF) / 2 ^ 16 /\
  mul_Q1616_Q16 0xFFFFFFFF 0xFFFF = (0xFFFFFFFF * 0xFFFF) / 2 ^ 16 /\
  0 <= (0xFFFFFFFF * 0xFFFF) / 2 ^ 16 <= 0xFFFFFFFF.
Proof.
  apply (mul_Q32_Q16_spec 0xFFFFFFFF 0xFFFF); [unfold in_uint32 | ]; lia.
Defined.

(** X13: [mul_Q32_UINT] and [mul_Q1616_UINT] return the low 32 bits of
    the product of a 32-bit value and a 16-bit integer: the exact
    product whenever it fits 32 bits, the product modulo 2^32
    otherwise. *)
Theorem mul_UINT_spec (a b : Z) :
  in_uint32 a -> 0 <= b <= 0xFFFF ->
  mul_Q32_UINT a b = (a * b) mod 2 ^ 32 /\
  mul_Q1616_UINT a b = (a * b) mod 2 ^ 32 /\
  (a * b < 2 ^ 32 -> mul_Q32_UINT a b = a * b /\ mul_Q1616_UINT a b = a * b).
Proof.
  intros Ha Hb. rewrite mul_Q32_UINT_as_Q1616.
  rewrite mul_Q1616_UINT_spec by (assumption || lia).
  split; [reflexivity | ]. split; [reflexivity | ].
  intros Hfit. unfold in_uint32 in Ha.
  rewrite Z.mod_small by nia. split; reflexivity.
Qed.

Lemma mul_UINT_spec_witness :
  mul_Q32_UINT 0x18000 3 = (0x18000 * 3) mod 2 ^ 32 /\
  mul_Q1616_UINT 0x18000 3 = (0x18000 * 3) mod 2 ^ 32 /\
  (0x18000 * 3 < 2 ^ 32 ->
   mul_Q32_UINT 0x18000 3 = 0x18000 * 3 /\ mul_Q1616_UINT 0x18000 3 = 0x18000 * 3).
Proof. apply (mul_UINT_spec 0x18000 3); [unfold in_uint32 | ]; lia. Defined.

(** X14: [mul_Q1616_Q1616] is commutative, 1.0 (0x10000) is its
    identity and 0 annihilates. *)
Theorem mul_Q1616_Q1616_algebra (a b : Z) :
  in_uint32 a -> in_uint32 b ->
  mul_Q1616_Q1616 a b = mul_Q1616_Q1616 b a /\
  mul_Q1616_Q1616 a 0x10000 = a /\ mul_Q1616_Q1616 0x10000 a = a /\
  mul_Q1616_Q1616 a 0 = 0.
Proof.
  intros Ha Hb.
  assert (H1 : in_uint32 0x10000) by (unfold in_uint32; lia).
  assert (H0 : in_uint32 0) by (unfold in_uint32; lia).
  rewrite !mul_Q1616_Q1616_floor by assumption.
  unfold in_uint32 in Ha.
  split; [rewrite (Z.mul_comm a b); reflexivity | ].
  split; [rewrite Z.div_mul by lia; apply Z.mod_small; exact Ha | ].
  split.
  - rewrite (Z.mul_comm 0x10000 a), Z.div_mul by lia.
    apply Z.mod_small; exact Ha.
  - rewrite Z.mul_0_r. reflexivity.
Qed.

Lemma mul_Q1616_Q1616_algebra_witness :
  mul_Q1616_Q1616 0x18000 0x28000 = mul_Q1616_Q1616 0x28000 0x18000 /\
  mul_Q1616_Q1616 0x18000 0x10000 = 0x18000 /\
  mul_Q1616_Q1616 0x10000 0x18000 = 0x18000 /\
  mul_Q1616_Q1616 0x18000 0 = 0.
Proof.
  apply (mul_Q1616_Q1616_algebra 0x18000 0x28000); unfold in_uint32; lia.
Defined.

(** X15: on a factor without integer part [mul_Q1616_Q1616] agrees with
    [mul_Q1616_Q16], and on a whole-number factor [k * 2^16] it agrees
    with [mul_Q1616_UINT] applied to [k]. *)
Theorem mul_Q1616_Q1616_by_halves (a b : Z) :
  in_uint32 a -> 0 <= b <= 0xFFFF ->
  mul_Q1616_Q1616 a b = mul_Q1616_Q16 a b /\
  mul_Q1616_Q1616 a (b * 2 ^ 16) = mul_Q1616_UINT a b.
Proof.
  intros Ha Hb. pow_consts.
  assert (Hb1 : in_uint32 b) by (unfold in_uint32; lia).
  assert (Hb2 : in_uint32 (b * 65536)) by (unfold in_uint32; lia).
  rewrite !mul_Q1616_Q1616_floor by assumption.
  rewrite mul_Q1616_Q16_spec, mul_Q1616_UINT_spec by (assumption || lia).
  pow_consts. split.
  - apply Z.mod_small. unfold in_uint32 in Ha.
    assert (0 <= a * b <= 65535 * a) by nia.
    remember (a * b) as p. Z.div_mod_to_equations. lia.
  - rewrite Z.mul_assoc, Z.div_mul by lia. reflexivity.
Qed.

Lemma mul_Q1616_Q1616_by_halves_witness :
  mul_Q1616_Q1616 0xFFFFFFFF 0xFFFF = mul_Q1616_Q16 0xFFFFFFFF 0xFFFF /\
  mul_Q1616_Q1616 0xFFFFFFFF (0xFFFF * 2 ^ 16) = mul_Q1616_UINT 0xFFFFFFFF 0xFFFF.
Proof.
  apply (mul_Q1616_Q1616_by_halves 0xFFFFFFFF 0xFFFF); [unfold in_uint32 | ]; lia.
Defined.

(** ** Array multiplication *)

Section MulArray.

Variable val : Z.
Hypothesis val_range : 0 <= val < 65536.

Lemma mul_us_high (s : Z) :
  in_int16 s -> to_int16 (snd (mul_us val (wrap16 s))) = mul_Q15_Q16 s val.
Proof.
  intros Hs. unfold mul_us, mul_Q15_Q16, Long.high. cbn [snd].
  rewrite mulsu_exact by assumption.
  rewrite signed16_wrap16 by assumption. rewrite (Z.mul_comm val s).
  unfold to_int16. f_equal. apply wrap16_small.
  rewrite ULong_high_div. unfold wrap32. pow_consts.
  pose proof (Z.mod_pos_bound (s * val) 4294967296 ltac:(lia)).
  split; [apply Z.div_pos | apply Z.div_lt_upper_bound]; lia.
Qed.

Lemma mul_aQ15_Q16_loop_spec (n : nat) :
  forall (m : mem) (src dst : Z),
  (dst <= src \/ src + Z.of_nat n <= dst) ->
  (forall i, 0 <= i < Z.of_nat n -> in_int16 (m (src + i))) ->
  (forall i, 0 <= i < Z.of_nat n ->
     mul_aQ15_Q16_loop n val m src dst (dst + i) = mul_Q15_Q16 (m (src + i)) val) /\
  (forall q, q < dst \/ dst + Z.of_nat n <= q ->
     mul_aQ15_Q16_loop n val m src dst q = m q).
Proof.
  induction n as [ | n IH]; intros m src dst Hsep Hsrc.
  - split; [intros i Hi; simpl in Hi; lia | reflexivity].
  - cbn [mul_aQ15_Q16_loop].
    destruct (mul_us val (wrap16 (m src))) as [w0 w1] eqn:Hmul.
    assert (Hw1 : to_int16 w1 = mul_Q15_Q16 (m src) val).
    { replace w1 with (snd (mul_us val (wrap16 (m src)))) by (rewrite Hmul; reflexivity).
      apply mul_us_high. replace (m src) with (m (src + 0)) by (f_equal; lia).
      apply Hsrc. lia. }
    set (m1 := store m dst (to_int16 w1)).
    assert (Hkeep : forall q, q <> dst -> m1 q = m q).
    { intros q Hq. unfold m1, store.
      destruct (Z.eqb_spec q dst); [contradiction | reflexivity]. }
    destruct (IH m1 (src + 1) (dst + 1)) as [IHv IHo].
    + lia.
    + intros i Hi. replace (src + 1 + i) with (src + (i + 1)) by lia.
      rewrite Hkeep by lia. apply Hsrc. lia.
    + split.
      * intros i Hi. destruct (Z.eq_dec i 0) as [-> | Hi0].
        -- rewrite Z.add_0_r. rewrite IHo by lia.
           rewrite Z.add_0_r. unfold m1, store. rewrite Z.eqb_refl. exact Hw1.
        -- replace (dst + i) with (dst + 1 + (i - 1)) by lia.
           rewrite IHv by lia.
           replace (src + 1 + (i - 1)) with (src + i) by lia.
           rewrite Hkeep by lia. reflexivity.
      * intros q Hq. rewrite IHo by lia. apply Hkeep. lia.
Qed.

End MulArray.

(** X16: for 1 <= len <= 32768 and a destination that is the source
    itself, lies below it, or starts after its end, [mul_aQ15_Q16]
    stores in every destination element the [mul_Q15_Q16] product of the
    matching source element with the scalar, and changes no memory
    outside the [len] destination elements. *)
Theorem mul_aQ15_Q16_spec (m : mem) (src val dst len : Z) :
  1 <= len <= 32768 -> 0 <= val <= 0xFFFF ->
  (dst <= src \/ src + len <= dst) ->
  (forall i, 0 <= i < len -> in_int16 (m (src + i))) ->
  (forall i, 0 <= i < len ->
     mul_aQ15_Q16 m src val dst len (dst + i) = mul_Q15_Q16 (m (src + i)) val) /\
  (forall q, q < dst \/ dst + len <= q -> mul_aQ15_Q16 m src val dst len q = m q).
Proof.
  intros Hlen Hval Hsep Hsrc. unfold mul_aQ15_Q16.
  rewrite wrap16_small by lia.
  replace (len - 1 + 1) with len by lia.
  pose proof (mul_aQ15_Q16_loop_spec val ltac:(lia) (Z.to_nat len) m src dst) as L.
  rewrite Z2Nat.id in L by lia. apply L; assumption.
Qed.

Lemma mul_aQ15_Q16_spec_witness :
  (forall i, 0 <= i < 2 ->
     mul_aQ15_Q16 (fun p => 100 * p) 0 0x8000 0 2 (0 + i)
     = mul_Q15_Q16 (100 * (0 + i)) 0x8000) /\
  (forall q, q < 0 \/ 0 + 2 <= q ->
     mul_aQ15_Q16 (fun p => 100 * p) 0 0x8000 0 2 q = 100 * q).
Proof.
  apply (mul_aQ15_Q16_spec (fun p => 100 * p) 0 0x8000 0 2).
  - lia.
  - lia.
  - left. lia.
  - intros i Hi. unfold in_int16. lia.
Defined.

(** ** Interpolation, continued *)

Section InterpMore.

Variable cfg : corcon.

Lemma interpLinear_hull (y1 y2 x : Z) :
  in_int16 y1 -> in_int16 y2 -> 0 <= x <= 65535 ->
  Z.min y1 y2 <= interpLinear cfg y1 y2 x <= Z.max y1 y2.
Proof.
  intros H1 H2 Hx.
  pose proof (interpLinear_nearest cfg y1 y2 x H1 H2 Hx) as N. cbv zeta in N.
  assert (Hh : 0 <= x / 2 <= 32767).
  { split; [apply Z.div_pos | apply Z.lt_succ_r, Z.div_lt_upper_bound]; lia. }
  remember (x / 2) as xh. remember (interpLinear cfg y1 y2 x) as y.
  unfold in_int16 in H1, H2.
  destruct (Z.le_ge_cases y1 y2).
  - assert (0 <= (y2 - y1) * xh <= (y2 - y1) * 32768) by nia. lia.
  - assert (0 <= (y1 - y2) * xh <= (y1 - y2) * 32768) by nia. lia.
Qed.

Lemma load_sample (t : list Z) (i : Z) :
  0 <= i -> load t (2 * i) = wrap16 (nth (Z.to_nat i) t 0).
Proof.
  intros Hi. unfold load. rewrite Z.shiftr_div_pow2 by lia.
  change (2 ^ 1) with 2. rewrite Z.mul_comm, Z.div_mul by lia. reflexivity.
Qed.

Lemma nth_in_int16 (t : list Z) (n : nat) :
  Forall in_int16 t -> in_int16 (nth n t 0).
Proof.
  intros Ht. destruct (Nat.lt_ge_cases n (length t)) as [Hlt | Hge].
  - rewrite Forall_forall in Ht. apply Ht. apply nth_In. exact Hlt.
  - rewrite nth_overflow by exact Hge. unfold in_int16. lia.
Qed.

(** The table interpolation is the two-point interpolation between the
    samples around the position, at the fraction given by the low byte. *)
Lemma interpLUT_as_interpLinear (t : list Z) (x : Z) :
  Forall in_int16 t -> 0 <= x <= 65535 ->
  interpLUT_256_Q15 cfg t x =
  interpLinear cfg (nth (Z.to_nat (x / 256)) t 0)
                   (nth (S (Z.to_nat (x / 256))) t 0)
                   ((x mod 256) * 256).
Proof.
  intros Ht Hx. unfold interpLUT_256_Q15, interpLinear, lsr, add, and_lit,
    lac_sh, sac_r_sh.
  rewrite !(Z.shiftr_div_pow2 x 8) by lia. change (2 ^ 8) with 256.
  assert (Hi : 0 <= x / 256 < 256)
    by (split; [apply Z.div_pos | apply Z.div_lt_upper_bound]; lia).
  assert (Hf : 0 <= x mod 256 < 256) by (apply Z.mod_pos_bound; lia).
  rewrite (wrap16_small (x / 256 + x / 256)) by lia.
  rewrite (wrap16_small (0 + (x / 256 + x / 256))) by lia.
  replace (0 + (x / 256 + x / 256)) with (2 * (x / 256)) by lia.
  replace (2 * (x / 256) + 2) with (2 * (x / 256 + 1)) by lia.
  rewrite !load_sample by lia.
  replace (Z.to_nat (x / 256 + 1)) with (S (Z.to_nat (x / 256)))
    by (rewrite Z2Nat.inj_add by lia; simpl; lia).
  set (yl := nth (Z.to_nat (x / 256)) t 0).
  set (yr := nth (S (Z.to_nat (x / 256))) t 0).
  assert (Hl : in_int16 yl) by (apply nth_in_int16; exact Ht).
  assert (Hr : in_int16 yr) by (apply nth_in_int16; exact Ht).
  change 0xff with (Z.ones 8). rewrite Z.land_comm, Z.land_ones by lia.
  change (2 ^ 8) with 256.
  rewrite (Z.shiftr_div_pow2 (x mod 256 * 256) 1) by lia. change (2 ^ 1) with 2.
  replace (x mod 256 * 256 / 2) with (128 * (x mod 256))
    by (apply (Z.div_unique _ _ _ 0); lia).
  rewrite (wrap16_small (128 * (x mod 256))) by lia.
  rewrite interp_accumulator by (assumption || lia).
  do 2 f_equal.
  unfold mac, msc, mpy.
  rewrite !signed16_wrap16 by assumption.
  rewrite (signed16_low (x mod 256)) by lia.
  rewrite !Z.shiftl_mul_pow2 by lia.
  rewrite (Z.shiftr_div_pow2 (yl * 2 ^ 16) 7) by lia.
  change (2 ^ 16) with (512 * 2 ^ 7). rewrite Z.mul_assoc, Z.div_mul by lia.
  change (2 ^ 1) with 2.
  unfold in_int16 in Hl, Hr. remember (x mod 256) as f.
  assert (B1 : -32768 * 255 <= yl * f <= 32767 * 255) by nia.
  assert (B2 : -32768 * 255 <= yr * f <= 32767 * 255) by nia.
  rewrite (wrap40_small (yl * 512)) by (change (2 ^ 39) with 549755813888; lia).
  rewrite (wrap40_small (yl * 512 - yl * f * 2))
    by (change (2 ^ 39) with 549755813888; lia).
  rewrite (wrap40_small (yl * 512 - yl * f * 2 + yr * f * 2))
    by (change (2 ^ 39) with 549755813888; lia).
  change (-7) with (- (7)). rewrite Z.shiftr_opp_r, Z.shiftl_mul_pow2 by lia.
  change (2 ^ 7) with 128.
  rewrite wrap40_small by (change (2 ^ 39) with 549755813888; lia).
  lia.
Qed.

End InterpMore.

(** X17: for Q0.15 end points and any Q0.16 position, [interpLinear]
    returns y1 + (y2 - y1) * (x >> 1) / 2^15 rounded to the nearest
    Q0.15 value (the position is used with 15 bits); the result always
    lies between the two end points, so equal end points are returned
    unchanged. *)
Theorem interpLinear_nearest_in_hull (cfg : corcon) (y1 y2 x : Z) :
  in_int16 y1 -> in_int16 y2 -> 0 <= x <= 0xFFFF ->
  Z.abs (32768 * interpLinear cfg y1 y2 x - (32768 * y1 + (y2 - y1) * (x / 2)))
    <= 16384 /\
  Z.min y1 y2 <= interpLinear cfg y1 y2 x <= Z.max y1 y2 /\
  (y1 = y2 -> interpLinear cfg y1 y2 x = y1).
Proof.
  intros H1 H2 Hx.
  pose proof (interpLinear_nearest cfg y1 y2 x H1 H2 Hx) as N. cbv zeta in N.
  pose proof (interpLinear_hull cfg y1 y2 x H1 H2 Hx) as B.
  split; [lia | ]. split; [exact B | ]. intros E. lia.
Qed.

Lemma interpLinear_nearest_in_hull_witness :
  Z.abs (32768 * interpLinear corcon_reset 100 201 0x8000
         - (32768 * 100 + (201 - 100) * (0x8000 / 2))) <= 16384 /\
  Z.min 100 201 <= interpLinear corcon_reset 100 201 0x8000 <= Z.max 100 201 /\
  (100 = 201 -> interpLinear corcon_reset 100 201 0x8000 = 100).
Proof.
  apply (interpLinear_nearest_in_hull corcon_reset 100 201 0x8000);
    unfold in_int16; lia.
Defined.

(** X18: on a table of 257 Q0.15 samples, [interpLUT_256_Q15] at
    position x is [interpLinear] between the samples number [x >> 8] and
    [(x >> 8) + 1], at the fraction formed by the low byte of x. *)
Theorem interpLUT_256_Q15_is_interpLinear (cfg : corcon) (yTable : list Z) (x : Z) :
  length yTable = 257%nat -> Forall in_int16 yTable -> 0 <= x <= 0xFFFF ->
  let index := Z.to_nat (Z.shiftr x 8) in
  interpLUT_256_Q15 cfg yTable x =
  interpLinear cfg (nth index yTable 0) (nth (S index) yTable 0)
                   (Z.shiftl (Z.land x 0xFF) 8).
Proof.
  intros _ Ht Hx. cbv zeta.
  rewrite Z.shiftr_div_pow2, Z.shiftl_mul_pow2 by lia.
  change 0xFF with (Z.ones 8). rewrite Z.land_ones by lia.
  apply interpLUT_as_interpLinear; assumption.
Qed.

Lemma interpLUT_256_Q15_is_interpLinear_witness :
  let yTable := map (fun n => 100 * Z.of_nat n - 10000) (seq 0 257) in
  let index := Z.to_nat (Z.shiftr 0x12C0 8) in
  interpLUT_256_Q15 corcon_reset yTable 0x12C0 =
  interpLinear corcon_reset (nth index yTable 0) (nth (S index) yTable 0)
               (Z.shiftl (Z.land 0x12C0 0xFF) 8).
Proof.
  apply (interpLUT_256_Q15_is_interpLinear corcon_reset
           (map (fun n => 100 * Z.of_nat n - 10000) (seq 0 257)) 0x12C0).
  - reflexivity.
  - apply Forall_forall. intros v Hv. apply in_map_iff in Hv.
    destruct Hv as [n [<- Hn]]. apply in_seq in Hn. unfold in_int16. lia.
  - lia.
Defined.

(** X19: on a table of 257 Q0.15 samples, [interpLUT_256_Q15] rounds the
    blend of the two samples around the position to the nearest Q0.15
    value and never leaves the interval they span; at a position whose
    low byte is 0 it returns the left sample exactly. *)
Theorem interpLUT_256_Q15_spec (cfg : corcon) (yTable : list Z) (x : Z) :
  length yTable = 257%nat -> Forall in_int16 yTable -> 0 <= x <= 0xFFFF ->
  let yl := nth (Z.to_nat (x / 256)) yTable 0 in
  let yr := nth (S (Z.to_nat (x / 256))) yTable 0 in
  let y := interpLUT_256_Q15 cfg yTable x in
  Z.abs (256 * y - (yl * (256 - x mod 256) + yr * (x mod 256))) <= 128 /\
  Z.min yl yr <= y <= Z.max yl yr /\
  (x mod 256 = 0 -> y = yl).
Proof.
  intros _ Ht Hx. cbv zeta.
  rewrite interpLUT_as_interpLinear by assumption.
  set (yl := nth (Z.to_nat (x / 256)) yTable 0).
  set (yr := nth (S (Z.to_nat (x / 256))) yTable 0).
  assert (Hl : in_int16 yl) by (apply nth_in_int16; exact Ht).
  assert (Hr : in_int16 yr) by (apply nth_in_int16; exact Ht).
  assert (Hf : 0 <= x mod 256 < 256) by (apply Z.mod_pos_bound; lia).
  pose proof (interpLinear_nearest cfg yl yr (x mod 256 * 256) Hl Hr ltac:(lia)) as N.
  pose proof (interpLinear_hull cfg yl yr (x mod 256 * 256) Hl Hr ltac:(lia)) as B.
  cbv zeta in N.
  replace (x mod 256 * 256 / 2) with (128 * (x mod 256)) in N
    by (apply (Z.div_unique _ _ _ 0); lia).
  remember (x mod 256) as f.
  remember (interpLinear cfg yl yr (f * 256)) as y.
  split; [ | split; [exact B | ]].
  - remember (yl * f) as pl. remember (yr * f) as pr.
    replace (yl * (128 * f)) with (128 * pl) in N by lia.
    replace (yr * (128 * f)) with (128 * pr) in N by lia.
    replace (yl * (256 - f)) with (256 * yl - pl) by lia. lia.
  - intros E. rewrite E in N. lia.
Qed.

Lemma interpLUT_256_Q15_spec_witness :
  let yTable := map (fun n => 100 * Z.of_nat n - 10000) (seq 0 257) in
  let yl := nth (Z.to_nat (0x8000 / 256)) yTable 0 in
  let yr := nth (S (Z.to_nat (0x8000 / 256))) yTable 0 in
  let y := interpLUT_256_Q15 corcon_reset yTable 0x8000 in
  Z.abs (256 * y - (yl * (256 - 0x8000 mod 256) + yr * (0x8000 mod 256))) <= 128 /\
  Z.min yl yr <= y <= Z.max yl yr /\
  (0x8000 mod 256 = 0 -> y = yl).
Proof.
  apply (interpLUT_256_Q15_spec corcon_reset
           (map (fun n => 100 * Z.of_nat n - 10000) (seq 0 257)) 0x8000).
  - reflexivity.
  - apply Forall_forall. intros v Hv. apply in_map_iff in Hv.
    destruct Hv as [n [<- Hn]]. apply in_seq in Hn. unfold in_int16. lia.
  - lia.
Defined.


(** ** Sine approximation, continued *)

Section SineMore.

Lemma table_shape : forallb table_shape_ok (seq 0 256) = true.
Proof. vm_compute. reflexivity. Qed.

Lemma quadrants : forallb quadrant_ok (seq 0 256) = true.
Proof. vm_compute. reflexivity. Qed.

Lemma table_shape_facts (i : nat) :
  (i < 256)%nat ->
  dy i = y0 (next_segment i) - y0 i /\
  y0 (opposite_segment i) = - y0 i /\
  dy (opposite_segment i) = - dy i /\
  y0 (mirror_segment i) = - (y0 i + dy i) /\
  dy (mirror_segment i) = dy i /\
  y0 (negated_segment i) = - y0 i.
Proof.
  intros Hi. pose proof table_shape as H.
  rewrite forallb_forall in H.
  assert (Hok : table_shape_ok i = true) by (apply H; apply in_seq; lia).
  unfold table_shape_ok in Hok.
  repeat (apply andb_prop in Hok; destruct Hok as [Hok ?]).
  repeat split; apply Z.eqb_eq; assumption.
Qed.

Lemma quadrant_facts (i : nat) :
  (i < 256)%nat ->
  ((i < 64 \/ 192 <= i)%nat -> 0 <= dy i) /\
  ((64 <= i < 192)%nat -> dy i <= 0) /\
  ((i < 128)%nat -> 0 <= y0 i + Z.min 0 ((dy i * 255) / 256)) /\
  ((128 <= i)%nat -> y0 i + Z.max 0 ((dy i * 255) / 256) <= 0).
Proof.
  intros Hi. pose proof quadrants as H.
  rewrite forallb_forall in H.
  assert (Hok : quadrant_ok i = true) by (apply H; apply in_seq; lia).
  unfold quadrant_ok in Hok.
  apply andb_prop in Hok. destruct Hok as [Hs Hv].
  destruct (Nat.ltb_spec i 64); destruct (Nat.leb_spec 192 i);
    destruct (Nat.ltb_spec i 128); cbn [orb] in Hs;
    apply Z.leb_le in Hs; apply Z.leb_le in Hv;
    repeat split; intros; lia.
Qed.

(** Index and offset of a phase pattern. *)
Lemma segment_index (x : Z) :
  0 <= wrap16 x / 256 < 256 /\ 0 <= wrap16 x mod 256 < 256 /\
  (Z.to_nat (wrap16 x / 256) < 256)%nat.
Proof.
  pose proof (wrap16_range x) as Hu.
  assert (0 <= wrap16 x / 256 < 256)
    by (split; [apply Z.div_pos | apply Z.div_lt_upper_bound]; lia).
  split; [assumption | ]. split; [apply Z.mod_pos_bound | ]; lia.
Qed.

Lemma wrap16_add (x k : Z) : wrap16 (x + k) = (wrap16 x + k) mod 65536.
Proof.
  unfold wrap16. change (2 ^ 16) with 65536.
  rewrite Z.add_mod_idemp_l by lia. reflexivity.
Qed.

Lemma wrap16_to_int16 (z : Z) : wrap16 (to_int16 z) = wrap16 z.
Proof.
  unfold to_int16. pose proof (wrap16_range z) as H.
  destruct (Z.lt_ge_cases (wrap16 z) 32768).
  - rewrite signed16_low by lia. apply wrap16_small. lia.
  - rewrite signed16_high by lia. rewrite wrap16_neg by lia. lia.
Qed.

(** One step along the phase axis, inside a segment or across its end. *)
Lemma sin_segment_step (x : Z) :
  let i := Z.to_nat (wrap16 x / 256) in
  (0 <= dy i -> sin_segment x <= sin_segment (x + 1)) /\
  (dy i <= 0 -> sin_segment (x + 1) <= sin_segment x).
Proof.
  cbv zeta. unfold sin_segment. cbv zeta.
  destruct (segment_index x) as (Hi & Hf & Hn).
  rewrite (wrap16_add x 1).
  set (u := wrap16 x) in *.
  pose proof (wrap16_range x) as Hu. fold u in Hu.
  destruct (Z.eq_dec (u mod 256) 255) as [Hend | Hin].
  - assert (E1 : ((u + 1) mod 65536) / 256 = (u / 256 + 1) mod 256)
      by (clear - Hu Hend; Z.div_mod_to_equations; lia).
    assert (E2 : ((u + 1) mod 65536) mod 256 = 0)
      by (clear - Hu Hend; Z.div_mod_to_equations; lia).
    rewrite E1, E2, Hend. rewrite Z.mul_0_r. change (0 / 256) with 0.
    destruct (table_shape_facts (Z.to_nat (u / 256)) Hn) as (Hc & _).
    unfold next_segment in Hc. rewrite Z2Nat.id in Hc by lia.
    remember (dy (Z.to_nat (u / 256))) as d.
    split; intros Hd; Z.div_mod_to_equations; lia.
  - assert (E1 : ((u + 1) mod 65536) / 256 = u / 256)
      by (clear - Hu Hf Hin; Z.div_mod_to_equations; lia).
    assert (E2 : ((u + 1) mod 65536) mod 256 = u mod 256 + 1)
      by (clear - Hu Hf Hin; Z.div_mod_to_equations; lia).
    rewrite E1, E2.
    remember (dy (Z.to_nat (u / 256))) as d. remember (u mod 256) as f.
    split; intros Hd.
    + assert (d * f / 256 <= d * (f + 1) / 256) by (apply Z.div_le_mono; nia).
      lia.
    + assert (d * (f + 1) / 256 <= d * f / 256) by (apply Z.div_le_mono; nia).
      lia.
Qed.

(** A function that does not decrease from one integer to the next does
    not decrease over an interval. *)
Lemma chain_le (g : Z -> Z) (a b : Z) :
  (forall x, a <= x < b -> g x <= g (x + 1)) ->
  forall x1 x2, a <= x1 -> x1 <= x2 -> x2 <= b -> g x1 <= g x2.
Proof.
  intros Hstep x1 x2 Ha Hle Hb.
  replace x2 with (x1 + Z.of_nat (Z.to_nat (x2 - x1))) in * by lia.
  induction (Z.to_nat (x2 - x1)) as [ | n IH].
  - rewrite Z.add_0_r. lia.
  - rewrite Nat2Z.inj_succ in *.
    apply Z.le_trans with (g (x1 + Z.of_nat n)); [apply IH; lia | ].
    replace (x1 + Z.succ (Z.of_nat n)) with (x1 + Z.of_nat n + 1) by lia.
    apply Hstep. lia.
Qed.

Lemma rising_quadrants (x : Z) :
  -0x4000 <= x < 0x4000 ->
  (Z.to_nat (wrap16 x / 256) < 64 \/ 192 <= Z.to_nat (wrap16 x / 256))%nat.
Proof.
  intros H. destruct (Z.lt_ge_cases x 0).
  - rewrite wrap16_neg by lia. right.
    assert (192 <= (x + 65536) / 256) by (apply Z.div_le_lower_bound; lia).
    lia.
  - rewrite wrap16_small by lia. left.
    assert (0 <= x / 256 < 64)
      by (split; [apply Z.div_pos | apply Z.div_lt_upper_bound]; lia).
    lia.
Qed.

Lemma falling_quadrants (x : Z) :
  0x4000 <= x <= 0x7FFF \/ -0x8000 <= x < -0x4000 ->
  (64 <= Z.to_nat (wrap16 x / 256) < 192)%nat.
Proof.
  intros [H | H].
  - rewrite wrap16_small by lia.
    assert (64 <= x / 256 < 128)
      by (split; [apply Z.div_le_lower_bound | apply Z.div_lt_upper_bound]; lia).
    lia.
  - rewrite wrap16_neg by lia.
    assert (128 <= (x + 65536) / 256 < 192)
      by (split; [apply Z.div_le_lower_bound | apply Z.div_lt_upper_bound]; lia).
    lia.
Qed.

Lemma sin_segment_rising (x1 x2 : Z) :
  -0x4000 <= x1 -> x1 <= x2 -> x2 <= 0x4000 ->
  sin_segment x1 <= sin_segment x2.
Proof.
  apply (chain_le sin_segment (-0x4000) 0x4000).
  intros x Hx. apply (sin_segment_step x).
  destruct (segment_index x) as (_ & _ & Hn).
  apply (quadrant_facts _ Hn). apply rising_quadrants. exact Hx.
Qed.

Lemma sin_segment_falling (a b x1 x2 : Z) :
  (a = 0x4000 /\ b = 0x7FFF) \/ (a = -0x8000 /\ b = -0x4000) ->
  a <= x1 -> x1 <= x2 -> x2 <= b ->
  sin_segment x2 <= sin_segment x1.
Proof.
  intros Hab H1 H12 H2.
  assert (G : - sin_segment x1 <= - sin_segment x2); [ | lia].
  apply (chain_le (fun x => - sin_segment x) a b); try assumption.
  intros x Hx.
  assert (sin_segment (x + 1) <= sin_segment x); [ | lia].
  apply (sin_segment_step x).
  destruct (segment_index x) as (_ & _ & Hn).
  apply (quadrant_facts _ Hn). apply falling_quadrants. lia.
Qed.

(** Half a period away the segment is the opposite one, at the same
    offset. *)
Lemma opposite_index (x : Z) :
  wrap16 (to_int16 (x + 0x8000)) / 256 = (wrap16 x / 256 + 128) mod 256 /\
  wrap16 (to_int16 (x + 0x8000)) mod 256 = wrap16 x mod 256.
Proof.
  rewrite wrap16_to_int16, wrap16_add.
  pose proof (wrap16_range x) as Hu. set (u := wrap16 x) in *.
  split; Z.div_mod_to_equations; lia.
Qed.

(** The negated phase falls in the mirrored segment at the
    complementary offset, or exactly on a segment start. *)
Lemma negated_index (x : Z) :
  let u := wrap16 x in
  let v := wrap16 (to_int16 (- x)) in
  (u mod 256 = 0 -> v / 256 = (256 - u / 256) mod 256 /\ v mod 256 = 0) /\
  (u mod 256 <> 0 -> v / 256 = 255 - u / 256 /\ v mod 256 = 256 - u mod 256).
Proof.
  cbv zeta. rewrite wrap16_to_int16.
  assert (E : wrap16 (- x) = (- wrap16 x) mod 65536).
  { unfold wrap16. change (2 ^ 16) with 65536.
    rewrite <- (Z.sub_0_l x), <- (Z.sub_0_l (x mod 65536)).
    rewrite Zminus_mod_idemp_r. reflexivity. }
  rewrite E. pose proof (wrap16_range x) as Hu. set (u := wrap16 x) in *.
  split; intros Hf; split; Z.div_mod_to_equations; lia.
Qed.

Lemma sin_segment_opposite (x : Z) :
  - sin_segment x - 1 <= sin_segment (to_int16 (x + 0x8000)) <= - sin_segment x.
Proof.
  unfold sin_segment. cbv zeta.
  destruct (opposite_index x) as [E1 E2]. rewrite E1, E2.
  destruct (segment_index x) as (Hi & Hf & Hn).
  destruct (table_shape_facts _ Hn) as (_ & Hy & Hd & _).
  unfold opposite_segment in Hy, Hd. rewrite Z2Nat.id in Hy, Hd by lia.
  rewrite Hy, Hd.
  remember (dy (Z.to_nat (wrap16 x / 256))) as d.
  remember (wrap16 x mod 256) as f.
  replace (- d * f) with (- (d * f)) by lia.
  remember (d * f) as p. Z.div_mod_to_equations. lia.
Qed.

Lemma sin_segment_negated (x : Z) :
  - sin_segment x - 1 <= sin_segment (to_int16 (- x)) <= - sin_segment x.
Proof.
  unfold sin_segment. cbv zeta.
  destruct (negated_index x) as [N0 N1]. cbv zeta in N0, N1.
  destruct (segment_index x) as (Hi & Hf & Hn).
  destruct (table_shape_facts _ Hn) as (_ & _ & _ & Hmy & Hmd & Hny).
  destruct (Z.eq_dec (wrap16 x mod 256) 0) as [Hz | Hnz].
  - destruct (N0 Hz) as [E1 E2]. rewrite E1, E2, Hz.
    unfold negated_segment in Hny. rewrite Z2Nat.id in Hny by lia.
    rewrite Hny, !Z.mul_0_r. change (0 / 256) with 0. lia.
  - destruct (N1 Hnz) as [E1 E2]. rewrite E1, E2.
    unfold mirror_segment in Hmy, Hmd.
    replace (Z.to_nat (255 - wrap16 x / 256))
      with (255 - Z.to_nat (wrap16 x / 256))%nat by lia.
    rewrite Hmy, Hmd.
    remember (dy (Z.to_nat (wrap16 x / 256))) as d.
    remember (wrap16 x mod 256) as f.
    replace (d * (256 - f)) with (d * 256 + - (d * f)) by lia.
    rewrite Z.div_add_l by lia.
    remember (d * f) as p. Z.div_mod_to_equations. lia.
Qed.

End SineMore.

(** X20: for every 16-bit phase the instruction sequence of [sin_Q15]
    returns [y0[i] + floor (dy[i] * f / 256)], where i is the high byte
    and f the low byte of the phase pattern; the 16-bit addition never
    wraps around. *)
Theorem sin_Q15_piecewise_linear (x : Z) :
  in_int16 x ->
  let i := Z.to_nat (Z.shiftr (wrap16 x) 8) in
  let f := Z.land (wrap16 x) 0xFF in
  sin_Q15 x = y0 i + (dy i * f) / 256.
Proof.
  intros _. cbv zeta.
  rewrite Z.shiftr_div_pow2 by lia. change 0xFF with (Z.ones 8).
  rewrite Z.land_ones by lia. change (2 ^ 8) with 256.
  apply (sin_Q15_segment x).
Qed.

Lemma sin_Q15_piecewise_linear_witness :
  let i := Z.to_nat (Z.shiftr (wrap16 (-0x4001)) 8) in
  let f := Z.land (wrap16 (-0x4001)) 0xFF in
  sin_Q15 (-0x4001) = y0 i + (dy i * f) / 256.
Proof. apply (sin_Q15_piecewise_linear (-0x4001)). unfold in_int16. lia. Defined.

(** X21: the sine table is consistent with itself: it has 512 entries;
    each slope is the difference between the next intercept (cyclically)
    and its own, so the piecewise-linear curve is continuous; the
    entries half a period away are the negated ones; and the segment
    mirrored about phase 0 has the same slope. *)
Theorem table_relations (i : nat) :
  (i < 256)%nat ->
  length table = 512%nat /\
  dy i = y0 (next_segment i) - y0 i /\
  y0 (opposite_segment i) = - y0 i /\
  dy (opposite_segment i) = - dy i /\
  dy (mirror_segment i) = dy i.
Proof.
  intros Hi. destruct (table_shape_facts i Hi) as (H1 & H2 & H3 & _ & H5 & _).
  split; [reflexivity | ]. repeat split; assumption.
Qed.

Lemma table_relations_witness :
  length table = 512%nat /\
  dy 255 = y0 (next_segment 255) - y0 255 /\
  y0 (opposite_segment 255) = - y0 255 /\
  dy (opposite_segment 255) = - dy 255 /\
  dy (mirror_segment 255) = dy 255.
Proof. apply (table_relations 255). lia. Defined.

(** X22: the result of [sin_Q15] has the sign of the phase: it is
    non-negative for phases in [0, 0x7FFF] and non-positive for
    negative phases. *)
Theorem sin_Q15_sign (x : Z) :
  in_int16 x ->
  (0 <= x -> 0 <= sin_Q15 x) /\ (x < 0 -> sin_Q15 x <= 0).
Proof.
  unfold in_int16. intros Hx.
  destruct (sin_Q15_segment x) as [E _]. rewrite E. unfold sin_segment. cbv zeta.
  destruct (segment_index x) as (Hi & Hf & Hn).
  destruct (quadrant_facts _ Hn) as (_ & _ & Hpos & Hneg).
  pose proof (scaled_slope_bounds (dy (Z.to_nat (wrap16 x / 256)))
                (wrap16 x mod 256) ltac:(lia)) as B.
  split; intros Hs.
  - rewrite wrap16_small in * by lia.
    assert (x / 256 < 128) by (apply Z.div_lt_upper_bound; lia).
    specialize (Hpos ltac:(lia)). lia.
  - rewrite wrap16_neg in * by lia.
    assert (128 <= (x + 65536) / 256) by (apply Z.div_le_lower_bound; lia).
    specialize (Hneg ltac:(lia)). lia.
Qed.

Lemma sin_Q15_sign_witness :
  (0 <= -1 -> 0 <= sin_Q15 (-1)) /\ (-1 < 0 -> sin_Q15 (-1) <= 0).
Proof. apply (sin_Q15_sign (-1)). unfold in_int16. lia. Defined.

(** X23: [sin_Q15] is monotone on each quadrant: non-decreasing over
    phases in [-0x4000, 0x4000], non-increasing over [0x4000, 0x7FFF]
    and over [-0x8000, -0x4000]. *)
Theorem sin_Q15_monotone (x1 x2 : Z) :
  in_int16 x1 -> in_int16 x2 -> x1 <= x2 ->
  (-0x4000 <= x1 -> x2 <= 0x4000 -> sin_Q15 x1 <= sin_Q15 x2) /\
  (0x4000 <= x1 -> sin_Q15 x2 <= sin_Q15 x1) /\
  (x2 <= -0x4000 -> sin_Q15 x2 <= sin_Q15 x1).
Proof.
  unfold in_int16. intros H1 H2 Hle.
  destruct (sin_Q15_segment x1) as [E1 _]. destruct (sin_Q15_segment x2) as [E2 _].
  rewrite E1, E2. split; [ | split].
  - intros Ha Hb. apply sin_segment_rising; assumption.
  - intros Ha. apply (sin_segment_falling 0x4000 0x7FFF); lia.
  - intros Hb. apply (sin_segment_falling (-0x8000) (-0x4000)); lia.
Qed.

Lemma sin_Q15_monotone_witness :
  (-0x4000 <= -0x100 -> 0x3FFF <= 0x4000 -> sin_Q15 (-0x100) <= sin_Q15 0x3FFF) /\
  (0x4000 <= -0x100 -> sin_Q15 0x3FFF <= sin_Q15 (-0x100)) /\
  (0x3FFF <= -0x4000 -> sin_Q15 0x3FFF <= sin_Q15 (-0x100)).
Proof.
  apply (sin_Q15_monotone (-0x100) 0x3FFF); unfold in_int16; lia.
Defined.

(** X24: shifting the phase by half a period (adding 0x8000 with 16-bit
    wrap-around) negates the result of [sin_Q15] up to 1 LSB: the result
    is [- sin_Q15 x] or one less. *)
Theorem sin_Q15_half_period (x : Z) :
  in_int16 x ->
  - sin_Q15 x - 1 <= sin_Q15 (to_int16 (x + 0x8000)) <= - sin_Q15 x.
Proof.
  intros _. destruct (sin_Q15_segment x) as [E1 _].
  destruct (sin_Q15_segment (to_int16 (x + 0x8000))) as [E2 _].
  rewrite E1, E2. apply sin_segment_opposite.
Qed.

Lemma sin_Q15_half_period_witness :
  - sin_Q15 0x1234 - 1 <= sin_Q15 (to_int16 (0x1234 + 0x8000)) <= - sin_Q15 0x1234.
Proof. apply (sin_Q15_half_period 0x1234). unfold in_int16. lia. Defined.

(** X25: [sin_Q15] is odd up to 1 LSB: for the 16-bit negation of the
    phase the result is [- sin_Q15 x] or one less. *)
Theorem sin_Q15_odd (x : Z) :
  in_int16 x ->
  - sin_Q15 x - 1 <= sin_Q15 (to_int16 (- x)) <= - sin_Q15 x.
Proof.
  intros _. destruct (sin_Q15_segment x) as [E1 _].
  destruct (sin_Q15_segment (to_int16 (- x))) as [E2 _].
  rewrite E1, E2. apply sin_segment_negated.
Qed.

Lemma sin_Q15_odd_witness :
  - sin_Q15 0x1234 - 1 <= sin_Q15 (to_int16 (- 0x1234)) <= - sin_Q15 0x1234.
Proof. apply (sin_Q15_odd 0x1234). unfold in_int16. lia. Defined.

(** ** Division, continued *)

Section DivMore.

Variable num den : Z.
Hypothesis num_range : 0 <= num < 65536.
Hypothesis den_range : 0 <= den < 65536.

Lemma remainder_halves :
  2 <= den ->
  0 <= (num mod den) / 2 < 32768 /\ 1 <= den / 2 < 32768.
Proof.
  intros Hd. pose proof (Z.mod_pos_bound num den ltac:(lia)) as Hr.
  split; (split; [apply Z.div_le_lower_bound | apply Z.div_lt_upper_bound]); lia.
Qed.

(** The value returned when both divide steps have a defined result. *)
Lemma div_Q16_Q16_value :
  2 <= den -> (num mod den) / 2 < den / 2 ->
  div_Q16_Q16 num den =
  Some ((num / den) * 65536 + 2 * (((num mod den) / 2 * 32768) / (den / 2))).
Proof.
  intros Hd Hlt. destruct (remainder_halves Hd) as [Hr' Hd'].
  unfold div_Q16_Q16, div_u, divf, lsr, sl.
  destruct (Z.eqb_spec den 0) as [E | _]; [lia | ].
  rewrite !Z.shiftr_div_pow2 by lia. change (2 ^ 1) with 2.
  rewrite (signed16_low (num mod den / 2)), (signed16_low (den / 2)) by lia.
  destruct (Z.eqb_spec (den / 2) 0) as [E | _]; [lia | ].
  destruct (Z.leb_spec (Z.abs (den / 2)) (Z.abs (num mod den / 2))) as [E | _];
    [lia | ].
  change (2 ^ 15) with 32768.
  rewrite Z.quot_div_nonneg by lia.
  set (t := num mod den / 2 * 32768 / (den / 2)).
  assert (Ht : 0 <= t < 32768).
  { unfold t. split; [apply Z.div_pos | apply Z.div_lt_upper_bound]; nia. }
  rewrite (wrap16_small t) by lia.
  rewrite Z.shiftl_mul_pow2 by lia. change (2 ^ 1) with 2.
  rewrite (wrap16_small (t * 2)) by lia.
  rewrite ULong_join_add by lia. change (2 ^ 16) with 65536.
  f_equal. lia.
Qed.

Lemma div_Q16_Q16_undefined :
  den < 2 \/ den / 2 <= (num mod den) / 2 -> div_Q16_Q16 num den = None.
Proof.
  intros Hbad. unfold div_Q16_Q16, div_u, divf, lsr.
  destruct (Z.eqb_spec den 0) as [E | Hne]; [reflexivity | ].
  rewrite !Z.shiftr_div_pow2 by lia. change (2 ^ 1) with 2.
  destruct (Z.eq_dec den 1) as [-> | Hne1]; [reflexivity | ].
  destruct (remainder_halves ltac:(lia)) as [Hr' Hd'].
  rewrite (signed16_low (num mod den / 2)), (signed16_low (den / 2)) by lia.
  destruct (Z.eqb_spec (den / 2) 0) as [E | _]; [reflexivity | ].
  destruct (Z.leb_spec (Z.abs (den / 2)) (Z.abs (num mod den / 2))) as [_ | E];
    [reflexivity | lia].
Qed.

(** Distance of the returned quotient from the exact one, cleared of the
    division by the denominator. *)
Lemma div_Q16_Q16_error :
  2 <= den -> (num mod den) / 2 < den / 2 ->
  let R := (num / den) * 65536 + 2 * (((num mod den) / 2 * 32768) / (den / 2)) in
  - 65536 < num * 65536 - R * den < 65536 + 2 * den /\
  (den mod 2 = 0 -> R * den <= num * 65536).
Proof.
  intros Hd Hlt. cbv zeta. destruct (remainder_halves Hd) as [Hr' Hd'].
  pose proof (Z.div_mod num den ltac:(lia)) as En.
  pose proof (Z.mod_pos_bound num den ltac:(lia)) as Hr.
  pose proof (Z.div_mod (num mod den) 2 ltac:(lia)) as Er.
  pose proof (Z.mod_pos_bound (num mod den) 2 ltac:(lia)) as Hre.
  pose proof (Z.div_mod den 2 ltac:(lia)) as Ed.
  pose proof (Z.mod_pos_bound den 2 ltac:(lia)) as Hde.
  set (q := num / den) in *. set (r := num mod den) in *.
  set (r' := r / 2) in *. set (d' := den / 2) in *.
  pose proof (Z.div_mod (r' * 32768) d' ltac:(lia)) as Et.
  pose proof (Z.mod_pos_bound (r' * 32768) d' ltac:(lia)) as Hte.
  set (t := r' * 32768 / d') in *.
  assert (Ht : 0 <= t < 32768).
  { unfold t. split; [apply Z.div_pos | apply Z.div_lt_upper_bound]; nia. }
  assert (Hq : 0 <= q) by (unfold q; apply Z.div_pos; lia).
  assert (P1 : (q * 65536 + 2 * t) * den = q * den * 65536 + 2 * (t * den)) by ring.
  assert (P2 : num * 65536 = q * den * 65536 + r * 65536) by (rewrite En at 1; ring).
  assert (P3 : t * den = 2 * (d' * t) + (den mod 2) * t) by (rewrite Ed at 1; ring).
  rewrite P1, P2, P3.
  remember (d' * t) as dt. remember (den mod 2) as g.
  remember (r mod 2) as e. remember (r' * 32768 mod d') as w.
  assert (G : 0 <= g * t <= t) by nia.
  remember (g * t) as gt.
  split; [ | intros Hg; subst gt; rewrite Hg in *]; lia.
Qed.

End DivMore.

(** X26: for a denominator of at least 2 LSB, dividing an exact
    multiple [k * den] by [den] gives exactly [k] in Q16.16, with a zero
    fraction. *)
Theorem div_Q16_Q16_exact_multiple (k den : Z) :
  2 <= den <= 0xFFFF -> 0 <= k -> k * den <= 0xFFFF ->
  div_Q16_Q16 (k * den) den = Some (k * 2 ^ 16).
Proof.
  intros Hd Hk Hn.
  assert (Hh : 1 <= den / 2) by (apply Z.div_le_lower_bound; lia).
  assert (Hr : (k * den) mod den / 2 < den / 2)
    by (rewrite Z.mod_mul by lia; change (0 / 2) with 0; lia).
  rewrite div_Q16_Q16_value by (exact Hr || nia).
  rewrite Z.div_mul, Z.mod_mul by lia. change (2 ^ 16) with 65536.
  change (0 / 2) with 0. rewrite Z.mul_0_l, Z.div_0_l by lia.
  f_equal. lia.
Qed.

Lemma div_Q16_Q16_exact_multiple_witness :
  div_Q16_Q16 (3 * 0x5555) 0x5555 = Some (3 * 2 ^ 16).
Proof. apply (div_Q16_Q16_exact_multiple 3 0x5555); lia. Defined.

(** X27: the two divide steps of [div_Q16_Q16] both have a defined
    result exactly when the denominator is at least 2 and the halved
    remainder is below the halved denominator; a denominator of 0 or 1,
    and an odd denominator d with remainder d - 1, leave the result
    undefined. *)
Theorem div_Q16_Q16_defined_iff (num den : Z) :
  0 <= num <= 0xFFFF -> 0 <= den <= 0xFFFF ->
  (div_Q16_Q16 num den <> None <->
   2 <= den /\ (num mod den) / 2 < den / 2) /\
  ((2 <= den /\ (num mod den) / 2 < den / 2) <->
   2 <= den /\ (den mod 2 = 0 \/ num mod den < den - 1)).
Proof.
  intros Hn Hd. split.
  - split.
    + intros Hdef.
      destruct (Z.lt_ge_cases den 2) as [Hlt | Hge].
      * exfalso. apply Hdef. apply div_Q16_Q16_undefined; lia.
      * split; [exact Hge | ].
        destruct (Z.lt_ge_cases ((num mod den) / 2) (den / 2)) as [Hok | Hbad];
          [exact Hok | ].
        exfalso. apply Hdef. apply div_Q16_Q16_undefined; lia.
    + intros [Hge Hok]. rewrite div_Q16_Q16_value by lia. discriminate.
  - split; intros [Hge H]; (split; [exact Hge | ]).
    + pose proof (Z.mod_pos_bound num den ltac:(lia)).
      Z.div_mod_to_equations. lia.
    + pose proof (Z.mod_pos_bound num den ltac:(lia)).
      remember (num mod den) as r. Z.div_mod_to_equations. lia.
Qed.

Lemma div_Q16_Q16_defined_iff_witness :
  (div_Q16_Q16 2 3 <> None <-> 2 <= 3 /\ (2 mod 3) / 2 < 3 / 2) /\
  ((2 <= 3 /\ (2 mod 3) / 2 < 3 / 2) <->
   2 <= 3 /\ (3 mod 2 = 0 \/ 2 mod 3 < 3 - 1)).
Proof. apply (div_Q16_Q16_defined_iff 2 3); lia. Defined.

(** X28: when both divide steps are defined, the integer part of the
    quotient is exactly [floor (num / den)], the least significant bit
    of the fraction is 0, and the Q16.16 result R is close to the exact
    quotient: [-2^16 < num * 2^16 - R * den < 2^16 + 2 * den]; for an
    even denominator R never exceeds the exact quotient. *)
Theorem div_Q16_Q16_accuracy (num den : Z) :
  0 <= num <= 0xFFFF -> 2 <= den <= 0xFFFF ->
  (num mod den) / 2 < den / 2 ->
  exists R : Z,
    div_Q16_Q16 num den = Some R /\
    ULong.high R = num / den /\
    Z.testbit R 0 = false /\
    - 2 ^ 16 < num * 2 ^ 16 - R * den < 2 ^ 16 + 2 * den /\
    (den mod 2 = 0 -> R * den <= num * 2 ^ 16).
Proof.
  intros Hn Hd Hok.
  exists ((num / den) * 65536 + 2 * (((num mod den) / 2 * 32768) / (den / 2))).
  split; [apply div_Q16_Q16_value; lia | ].
  pose proof (div_Q16_Q16_error num den ltac:(lia) ltac:(lia) ltac:(lia) Hok) as E.
  cbv zeta in E. change (2 ^ 16) with 65536.
  set (t := (num mod den) / 2 * 32768 / (den / 2)) in *.
  assert (Ht : 0 <= t < 32768).
  { pose proof (Z.mod_pos_bound num den ltac:(lia)).
    assert (0 <= (num mod den) / 2) by (apply Z.div_pos; lia).
    assert (1 <= den / 2) by (apply Z.div_le_lower_bound; lia).
    unfold t. split; [apply Z.div_pos | apply Z.div_lt_upper_bound]; nia. }
  split; [ | split; [ | exact E]].
  - rewrite ULong_high_div. change (2 ^ 16) with 65536.
    rewrite Z.div_add_l by lia. rewrite (Z.div_small (2 * t)) by lia. lia.
  - replace (num / den * 65536 + 2 * t) with (2 * (num / den * 32768 + t)) by lia.
    apply Z.testbit_even_0.
Qed.

Lemma div_Q16_Q16_accuracy_witness :
  exists R : Z,
    div_Q16_Q16 0x8000 0xC000 = Some R /\
    ULong.high R = 0x8000 / 0xC000 /\
    Z.testbit R 0 = false /\
    - 2 ^ 16 < 0x8000 * 2 ^ 16 - R * 0xC000 < 2 ^ 16 + 2 * 0xC000 /\
    (0xC000 mod 2 = 0 -> R * 0xC000 <= 0x8000 * 2 ^ 16).
Proof.
  apply (div_Q16_Q16_accuracy 0x8000 0xC000); try lia.
  vm_compute. reflexivity.
Defined.
